(** * go-web3: a shallow embedding of [web3.go] and its properties

    The Go package [web3] is a handful of helpers over byte slices and
    strings: the EIP-55 checksum encoding of an address and its validation,
    padding to 32 bytes, and concatenation.  Each Go function is embedded
    below under its own name.

    - A [[]byte] is a [list byte]; a Go [string] is a read-only sequence of
      bytes too ([len] and indexing count bytes), so it is a [list byte] as
      well, under the name [gostring].
    - A Go function either returns or panics (index or slice bounds out of
      range); the [go] monad keeps the two apart.
    - Multiple return values [(v, err)] are pairs whose second component is
      [option error], [None] being Go's [nil] error.
    - The packages the file imports ([encoding/hex], [strings],
      [golang.org/x/crypto/sha3]) are embedded in modules of the same names,
      following those packages' sources.
    - [ComputeHMACDigest] calls into [crypto/hmac] and [crypto/sha256],
      embedded the same way. *)

From Stdlib Require Import String Strings.Byte.
From Stdlib Require Import List NArith ZArith Bool Lia.
Import ListNotations.

Local Open Scope Z_scope.

(** ** Bytes, strings and the Go runtime *)

Abbreviation byte := Byte.byte.

(** A Go string: its bytes. *)
Definition gostring : Type := list byte.

(** A string literal of the source, as its bytes. *)
Definition lit (s : string) : gostring := list_byte_of_string s.

(** The numeric value of a byte, and Go's conversion [byte(n)], which keeps
    the low eight bits. *)
Definition u8 (b : byte) : N := Byte.to_N b.

Definition byte_of_N (n : N) : byte :=
  match Byte.of_N (N.modulo n 256) with
  | Some b => b
  | None => Byte.x00
  end.

(** [a <= b] on bytes, as Go compares them: by value. *)
Definition byte_leb (a b : byte) : bool := N.leb (u8 a) (u8 b).

(** Go's builtin [len]: an [int]. *)
Definition len {A : Type} (s : list A) : Z := Z.of_nat (length s).

(** Go's [==] on strings: same length and same bytes. *)
Fixpoint string_eq (s t : gostring) : bool :=
  match s, t with
  | [], [] => true
  | a :: s', b :: t' => Byte.eqb a b && string_eq s' t'
  | _, _ => false
  end.

(** What the runtime panics with when an index or a slice bound is out of
    range; the numbers are the offending index or bound and the length. *)
Inductive panic : Type :=
| IndexOutOfRange (i : Z) (length : Z)
| SliceBoundsOutOfRange (lo : Z) (length : Z).

(** The outcome of running Go code: it returns a value or it panics. *)
Inductive go (A : Type) : Type :=
| Return (x : A)
| Panic (p : panic).

Arguments Return {A} x.
Arguments Panic {A} p.

Definition bind {A B : Type} (m : go A) (k : A -> go B) : go B :=
  match m with
  | Return x => k x
  | Panic p => Panic p
  end.

Notation "x <- m ;; k" := (bind m (fun x => k))
  (at level 61, m at next level, right associativity).
Notation "' pat <- m ;; k" := (bind m (fun x => match x with pat => k end))
  (at level 61, pat pattern, m at next level, right associativity).

(** [s[i]]: the runtime checks [0 <= i < len(s)]. *)
Definition index {A : Type} (s : list A) (i : Z) : go A :=
  if (0 <=? i) && (i <? len s) then
    match nth_error s (Z.to_nat i) with
    | Some x => Return x
    | None => Panic (IndexOutOfRange i (len s))
    end
  else Panic (IndexOutOfRange i (len s)).

(** [s[lo:]]: the runtime checks [0 <= lo <= len(s)]. *)
Definition slice_from {A : Type} (s : list A) (lo : Z) : go (list A) :=
  if (0 <=? lo) && (lo <=? len s) then Return (skipn (Z.to_nat lo) s)
  else Panic (SliceBoundsOutOfRange lo (len s)).

(** [make([]byte, n)]: [n] zero bytes. *)
Definition make (n : nat) : list byte := repeat Byte.x00 n.

(** [copy(buf[lo:], src)] and the contents of [buf] afterwards.  The slice
    [buf[lo:]] is a view of [buf]'s array from offset [lo]; [copy] overwrites
    the first [min(len(dst), len(src))] bytes of the view, so the buffer is
    its untouched prefix followed by the updated view. *)
Definition copy_into (buf : list byte) (lo : Z) (src : list byte) : go (list byte) :=
  dst <- slice_from buf lo ;;
  let n := Nat.min (length dst) (length src) in
  Return (firstn (Z.to_nat lo) buf ++ firstn n src ++ skipn n dst).

(** ** golang.org/x/crypto/sha3: legacy Keccak-256 *)

Module sha3.

Local Open Scope N_scope.

(** The sponge state: 25 lanes of 64 bits, lane [(x, y)] at [x + 5 * y]. *)
Definition state : Type := list N.

Definition lane (st : state) (i : nat) : N := nth i st 0.

Definition mask64 : N := 0xFFFFFFFFFFFFFFFF.

Definition rotl64 (x n : N) : N :=
  N.land (N.lor (N.shiftl x n) (N.shiftr x (64 - n))) mask64.

Definition lanes : list nat := seq 0 25.

(** The round constants. *)
Definition rc : list N :=
  [ 0x0000000000000001; 0x0000000000008082; 0x800000000000808A;
    0x8000000080008000; 0x000000000000808B; 0x0000000080000001;
    0x8000000080008081; 0x8000000000008009; 0x000000000000008A;
    0x0000000000000088; 0x0000000080008009; 0x000000008000000A;
    0x000000008000808B; 0x800000000000008B; 0x8000000000008089;
    0x8000000000008003; 0x8000000000008002; 0x8000000000000080;
    0x000000000000800A; 0x800000008000000A; 0x8000000080008081;
    0x8000000000008080; 0x0000000080000001; 0x8000000080008008 ].

(** The rotation offsets, lane [(x, y)] at [x + 5 * y]. *)
Definition rotc : list N :=
  [  0;  1; 62; 28; 27;
    36; 44;  6; 55; 20;
     3; 10; 43; 25; 39;
    41; 45; 15; 21;  8;
    18;  2; 61; 56; 14 ].

Definition theta (st : state) : state :=
  let c := map (fun x =>
    N.lxor (lane st x) (N.lxor (lane st (x + 5)) (N.lxor (lane st (x + 10))
      (N.lxor (lane st (x + 15)) (lane st (x + 20)))))) (seq 0 5) in
  let d := map (fun x =>
    N.lxor (nth ((x + 4) mod 5) c 0) (rotl64 (nth ((x + 1) mod 5) c 0) 1)) (seq 0 5) in
  map (fun i => N.lxor (lane st i) (nth (i mod 5) d 0)) lanes.

(** Rho and pi together: lane [(x, y)] rotated goes to [(y, 2x + 3y)], so
    the lane at [(X, Y)] comes from [(X + 3Y, X)]. *)
Definition rho_pi (st : state) : state :=
  map (fun i =>
    let X := (i mod 5)%nat in
    let Y := (i / 5)%nat in
    let src := (((X + 3 * Y) mod 5) + 5 * X)%nat in
    rotl64 (lane st src) (nth src rotc 0)) lanes.

Definition chi (st : state) : state :=
  map (fun i =>
    let x := (i mod 5)%nat in
    let row := (5 * (i / 5))%nat in
    N.lxor (lane st i)
      (N.ldiff (lane st (row + (x + 2) mod 5)) (lane st (row + (x + 1) mod 5)))) lanes.

Definition iota (round : nat) (st : state) : state :=
  match st with
  | [] => []
  | l0 :: rest => N.lxor l0 (nth round rc 0) :: rest
  end.

Definition round (st : state) (r : nat) : state :=
  iota r (chi (rho_pi (theta st))).

(** Keccak-f[1600]: the 24 rounds. *)
Definition keccakF1600 (st : state) : state :=
  fold_left round (seq 0 24) st.

(** The rate of Keccak-256 in bytes, and the legacy domain-separation
    byte. *)
Definition rate : nat := 136.
Definition dsbyteKeccak : N := 0x01.

(** XOR the byte [b] into the state at byte offset [pos] (lanes are
    little-endian). *)
Definition xor_byte (st : state) (pos : nat) (b : N) : state :=
  map (fun i =>
    if Nat.eqb i (pos / 8) then N.lxor (lane st i) (N.shiftl b (8 * N.of_nat (pos mod 8)))
    else lane st i) lanes.

(** [Write]: absorb the input byte by byte, permuting whenever a block of
    [rate] bytes is full. *)
Fixpoint absorb (st : state) (pos : nat) (p : list byte) : state * nat :=
  match p with
  | [] => (st, pos)
  | b :: p' =>
      let st' := xor_byte st pos (u8 b) in
      if Nat.eqb (S pos) rate then absorb (keccakF1600 st') 0 p'
      else absorb st' (S pos) p'
  end.

(** Pad (domain byte at the write position, [0x80] into the last byte of
    the block) and permute. *)
Definition padAndPermute (st : state) (pos : nat) : state :=
  keccakF1600 (xor_byte (xor_byte st pos dsbyteKeccak) (rate - 1) 0x80).

(** Byte [i] of the state. *)
Definition state_byte (st : state) (i : nat) : byte :=
  byte_of_N (N.shiftr (lane st (i / 8)) (8 * N.of_nat (i mod 8))).

(** [Sum(nil)] after [Write(p)] on [NewLegacyKeccak256()]: the 32-byte
    digest. *)
Definition Keccak256 (p : list byte) : list byte :=
  let '(st, pos) := absorb (repeat 0 25) 0 p in
  map (state_byte (padAndPermute st pos)) (seq 0 32).

End sha3.

Arguments sha3.Keccak256 : simpl never.

(** ** encoding/hex *)

Module hex.

Local Open Scope N_scope.

(** The errors of [Decode]. *)
Inductive error : Type :=
| InvalidByteError (b : byte)
| ErrLength.

Definition hextable : gostring := lit "0123456789abcdef".

(** [hextable[n]], for a nibble [n]. *)
Definition hexchar (n : N) : byte := nth (N.to_nat n) hextable Byte.x00.

(** [v>>4] and [v&0x0f]: the two nibbles of a byte. *)
Definition hi (v : byte) : N := N.shiftr (u8 v) 4.
Definition lo (v : byte) : N := N.land (u8 v) 0x0f.

(** [Encode]: each byte [v] gives [hextable[v>>4]] and
    [hextable[v&0x0f]]. *)
Definition EncodeToString (src : list byte) : gostring :=
  flat_map (fun v => [hexchar (hi v); hexchar (lo v)]) src.

(** [fromHexChar]: the value of a hex digit of either case, and whether the
    byte is one. *)
Definition fromHexChar (c : byte) : N * bool :=
  if byte_leb "0"%byte c && byte_leb c "9"%byte then (u8 c - u8 "0"%byte, true)
  else if byte_leb "a"%byte c && byte_leb c "f"%byte then (u8 c - u8 "a"%byte + 10, true)
  else if byte_leb "A"%byte c && byte_leb c "F"%byte then (u8 c - u8 "A"%byte + 10, true)
  else (0, false).

(** [Decode]: pairs of hex digits to bytes.  An invalid byte is reported
    before an odd length, and the bytes decoded before the error are kept. *)
Fixpoint Decode (src : list byte) : list byte * option error :=
  match src with
  | [] => ([], None)
  | [p] =>
      let '(_, ok) := fromHexChar p in
      if ok then ([], Some ErrLength) else ([], Some (InvalidByteError p))
  | p :: q :: rest =>
      let '(a, ok) := fromHexChar p in
      if negb ok then ([], Some (InvalidByteError p))
      else
        let '(b, ok) := fromHexChar q in
        if negb ok then ([], Some (InvalidByteError q))
        else
          let '(dst, err) := Decode rest in
          (byte_of_N (N.lor (N.shiftl a 4) b) :: dst, err)
  end.

(** [DecodeString(s)]: [Decode] on the bytes of [s]. *)
Definition DecodeString (s : gostring) : list byte * option error := Decode s.

End hex.

Arguments hex.hi : simpl never.
Arguments hex.lo : simpl never.

(** ** strings *)

Module strings.

(** [HasPrefix(s, prefix)]:
    [len(s) >= len(prefix) && s[:len(prefix)] == prefix]. *)
Definition HasPrefix (s prefix : gostring) : bool :=
  (len prefix <=? len s) && string_eq (firstn (length prefix) s) prefix.

(** The upper-case form of an ASCII byte: ['a'..'z'] move down by
    ['a' - 'A'], every other byte stays. *)
Definition upper (c : byte) : byte :=
  if byte_leb "a"%byte c && byte_leb c "z"%byte then byte_of_N (u8 c - (u8 "a"%byte - u8 "A"%byte))
  else c.

(** [ToUpper(s)] on an ASCII string (the path the package takes when no
    byte is [>= 0x80]); the Unicode mapping of other strings is not
    modelled, their bytes [>= 0x80] stay as they are. *)
Definition ToUpper (s : gostring) : gostring := map upper s.

(** A [strings.Builder]: the bytes written so far.  [WriteString] appends
    a string, [WriteRune] the encoding of a rune, one byte for an ASCII
    rune. *)
Definition Builder : Type := gostring.
Definition WriteString (b : Builder) (s : gostring) : Builder := b ++ s.
Definition WriteRune (b : Builder) (c : byte) : Builder := b ++ [c].

End strings.

(** ** web3.go *)

(** [Keccak]: the Keccak-256 digest of the input. *)
Definition Keccak (input : list byte) : list byte := sha3.Keccak256 input.

(** The loop of [ToChecksumAddress]:
    [for i, c := range address { if hashHex[i] >= '8' { ... } else { ... } }].
    [address] is the output of [hex.EncodeToString], all ASCII, so [range]
    yields one rune per byte and [i] is the byte's index.  [hashHex[i]] is
    checked by the runtime on every iteration. *)
Fixpoint checksum_loop (hashHex : gostring) (i : Z) (address : gostring)
    (checksumAddress : strings.Builder) : go strings.Builder :=
  match address with
  | [] => Return checksumAddress
  | c :: rest =>
      h <- index hashHex i ;;
      if byte_leb "8"%byte h then
        u <- index (strings.ToUpper [c]) 0 ;;
        checksum_loop hashHex (i + 1) rest (strings.WriteRune checksumAddress u)
      else
        checksum_loop hashHex (i + 1) rest (strings.WriteRune checksumAddress c)
  end.

Definition ToChecksumAddress (a : list byte) : go (gostring * option hex.error) :=
  let address := hex.EncodeToString a in
  let hash := sha3.Keccak256 address in
  let hashHex := hex.EncodeToString hash in
  let checksumAddress := strings.WriteString [] (lit "0x") in
  checksumAddress <- checksum_loop hashHex 0 address checksumAddress ;;
  Return (checksumAddress, None).

Definition IsChecksumAddress (address : gostring) : go bool :=
  if negb (strings.HasPrefix address (lit "0x")) || negb (len address =? 42) then
    Return false
  else
    tail <- slice_from address 2 ;;
    let '(addressHex, err) := hex.DecodeString tail in
    match err with
    | Some _ => Return false
    | None =>
        '(expectedChecksum, err) <- ToChecksumAddress addressHex ;;
        match err with
        | Some _ => Return false
        | None => Return (string_eq address expectedChecksum)
        end
    end.

(** [nil] as a [[]byte] result is the empty list. *)
Definition PadHexStringTo32Bytes (hexString : gostring) : go (list byte * option hex.error) :=
  hexString <- (if strings.HasPrefix hexString (lit "0x") then slice_from hexString 2
                else Return hexString) ;;
  let '(data, err) := hex.DecodeString hexString in
  match err with
  | Some e => Return ([], Some e)
  | None =>
      let paddedData := make 32 in
      paddedData <- copy_into paddedData (32 - len data) data ;;
      Return (paddedData, None)
  end.

Definition PadTo32Bytes (sender : list byte) : go (list byte) :=
  if 32 <=? len sender then Return sender
  else
    let paddedSender := make 32 in
    copy_into paddedSender (32 - len sender) sender.

(** [ConcatBytes(bytes...)]: the variadic arguments are the list [bytes].
    The first loop adds up the lengths; [make([]byte, 0, size)] is an empty
    slice of that capacity, so no [append] of the second loop reallocates.
    The capacity does not show in the contents. *)
Definition ConcatBytes_size (bytes : list (list byte)) : Z :=
  fold_left (fun size b => size + len b) bytes 0.

Definition make_cap (n : nat) (cap : Z) : list byte := make n.

Definition ConcatBytes (bytes : list (list byte)) : list byte :=
  let size := ConcatBytes_size bytes in
  let result := make_cap 0 size in
  fold_left (fun result b => result ++ b) bytes result.

(** ** The specification's vocabulary

    The definitions below follow the words of the specification, not the
    code; the theorems compare the two. *)

(** The classes of characters the specification names. *)
Definition is_digit (c : byte) : bool := byte_leb "0"%byte c && byte_leb c "9"%byte.
Definition is_letter_af (c : byte) : bool := byte_leb "a"%byte c && byte_leb c "f"%byte.
Definition is_letter_AF (c : byte) : bool := byte_leb "A"%byte c && byte_leb c "F"%byte.

(** The characters [EncodeToString] emits: digits and the letters [a-f]. *)
Definition is_lower_hex (c : byte) : bool := is_digit c || is_letter_af c.

(** A hexadecimal digit character, of either case; an alphabetic one. *)
Definition is_hex_digit (c : byte) : bool := is_digit c || is_letter_af c || is_letter_AF c.
Definition is_hex_letter (c : byte) : bool := is_letter_af c || is_letter_AF c.

(** Valid hexadecimal: an even number of characters, each a hex digit. *)
Definition valid_hex (s : gostring) : bool :=
  Nat.even (length s) && forallb is_hex_digit s.

(** "Starts with [0x]". *)
Definition starts_with_0x (s : gostring) : Prop := exists t, s = lit "0x" ++ t.

(** The lower-case form of an ASCII byte, and a character with its case
    flipped. *)
Definition lower (c : byte) : byte :=
  if byte_leb "A"%byte c && byte_leb c "Z"%byte then byte_of_N (u8 c + 32) else c.

Definition flip_case (c : byte) : byte :=
  if byte_leb "a"%byte c && byte_leb c "z"%byte then strings.upper c else lower c.

(** [s] with the case of its character at index [i] flipped. *)
Fixpoint flip_case_at (i : nat) (s : gostring) : gostring :=
  match s, i with
  | [], _ => []
  | c :: s', O => flip_case c :: s'
  | c :: s', S i' => c :: flip_case_at i' s'
  end.

(** The strings that spell the hex digits of [a] after [0x], in any mix of
    cases: lower-cased, the digits are the hex encoding of [a]. *)
Definition case_variant (a : list byte) (s : gostring) : Prop :=
  exists t, s = lit "0x" ++ t /\ map lower t = hex.EncodeToString a.

(** Step 3 of Encode, for one character [c] of [addrHex] and the character
    of [hashHex] at the same index, if there is one: upper-case a letter
    [a-f] whose hash character is at least ['8'], and leave every other
    character as it is. *)
Definition spec_char (c : byte) (h : option byte) : byte :=
  match h with
  | Some h => if is_letter_af c && byte_leb "8"%byte h then strings.upper c else c
  | None => c
  end.

(** Encode as the specification describes it: ["0x"], then the characters
    of [addrHex] index by index. *)
Definition spec_Encode (a : list byte) : gostring :=
  let addrHex := hex.EncodeToString a in
  let hashHex := hex.EncodeToString (sha3.Keccak256 addrHex) in
  lit "0x" ++
  map (fun i => spec_char (nth i addrHex Byte.x00) (nth_error hashHex i))
      (seq 0 (length addrHex)).

(** The padding the specification describes: the bytes right-aligned in 32
    bytes, every byte before them zero. *)
Definition right_aligned_32 (data : list byte) : list byte :=
  repeat Byte.x00 (32 - length data) ++ data.

(** "Strips an optional [0x] prefix". *)
Definition strip_0x (s : gostring) : gostring :=
  match s with
  | c0 :: c1 :: t => if Byte.eqb c0 "0"%byte && Byte.eqb c1 "x"%byte then t else s
  | _ => s
  end.

(** The bytes a string of hex digits spells, for writing test vectors. *)
Definition unhex (s : string) : list byte := fst (hex.DecodeString (lit s)).

(** The address of the README's example, 20 bytes. *)
Definition readme_address : list byte := unhex "1234567890abcdef1234567890abcdef12345678".

(** An input one byte too long for each of the two unguarded functions: 33
    bytes. *)
Definition bytes33 : list byte := repeat Byte.x01 33.

(** The code's loop as a function of the two strings: character by
    character, for as long as [hashHex] has characters. *)
Fixpoint cased (address hashHex : gostring) : gostring :=
  match address, hashHex with
  | c :: rest, h :: hs =>
      (if byte_leb "8"%byte h then strings.upper c else c) :: cased rest hs
  | _, _ => address
  end.

(** ** crypto/sha256 *)

Module sha256.

Local Open Scope N_scope.

(** The block size and the digest size, in bytes. *)
Definition BlockSize : nat := 64.
Definition Size : nat := 32.

Definition mask32 : N := 0xFFFFFFFF.

(** [uint32] addition wraps; [bits.RotateLeft32(x, -n)] rotates right. *)
Definition add32 (x y : N) : N := N.land (x + y) mask32.

Definition rotr32 (x n : N) : N :=
  N.lor (N.shiftr x n) (N.land (N.shiftl x (32 - n)) mask32).

Definition init : list N :=
  [ 0x6A09E667; 0xBB67AE85; 0x3C6EF372; 0xA54FF53A;
    0x510E527F; 0x9B05688C; 0x1F83D9AB; 0x5BE0CD19 ].

Definition _K : list N :=
  [ 0x428A2F98; 0x71374491; 0xB5C0FBCF; 0xE9B5DBA5;
    0x3956C25B; 0x59F111F1; 0x923F82A4; 0xAB1C5ED5;
    0xD807AA98; 0x12835B01; 0x243185BE; 0x550C7DC3;
    0x72BE5D74; 0x80DEB1FE; 0x9BDC06A7; 0xC19BF174;
    0xE49B69C1; 0xEFBE4786; 0x0FC19DC6; 0x240CA1CC;
    0x2DE92C6F; 0x4A7484AA; 0x5CB0A9DC; 0x76F988DA;
    0x983E5152; 0xA831C66D; 0xB00327C8; 0xBF597FC7;
    0xC6E00BF3; 0xD5A79147; 0x06CA6351; 0x14292967;
    0x27B70A85; 0x2E1B2138; 0x4D2C6DFC; 0x53380D13;
    0x650A7354; 0x766A0ABB; 0x81C2C92E; 0x92722C85;
    0xA2BFE8A1; 0xA81A664B; 0xC24B8B70; 0xC76C51A3;
    0xD192E819; 0xD6990624; 0xF40E3585; 0x106AA070;
    0x19A4C116; 0x1E376C08; 0x2748774C; 0x34B0BCB5;
    0x391C0CB3; 0x4ED8AA4A; 0x5B9CCA4F; 0x682E6FF3;
    0x748F82EE; 0x78A5636F; 0x84C87814; 0x8CC70208;
    0x90BEFFFA; 0xA4506CEB; 0xBEF9A3F7; 0xC67178F2 ].

(** The big-endian [uint32] at offset [4 * i] of a block. *)
Definition word_at (p : list byte) (i : nat) : N :=
  let b := fun k => u8 (nth (4 * i + k) p Byte.x00) in
  N.lor (N.shiftl (b 0%nat) 24) (N.lor (N.shiftl (b 1%nat) 16)
    (N.lor (N.shiftl (b 2%nat) 8) (b 3%nat))).

(** The message schedule, latest word first: [w[i]] from [w[i-2]],
    [w[i-7]], [w[i-15]] and [w[i-16]]. *)
Definition schedule_step (w : list N) : list N :=
  let v1 := nth 1 w 0 in
  let t1 := N.lxor (rotr32 v1 17) (N.lxor (rotr32 v1 19) (N.shiftr v1 10)) in
  let v2 := nth 14 w 0 in
  let t2 := N.lxor (rotr32 v2 7) (N.lxor (rotr32 v2 18) (N.shiftr v2 3)) in
  add32 (add32 (add32 t1 (nth 6 w 0)) t2) (nth 15 w 0) :: w.

Definition schedule (p : list byte) : list N :=
  rev (Nat.iter 48 schedule_step (rev (map (word_at p) (seq 0 16)))).

(** The eight working variables [a .. h] of a round. *)
Definition vars : Type := (N * N * N * N * N * N * N * N)%type.

Definition round (v : vars) (kw : N * N) : vars :=
  let '(a, b, c, d, e, f, g, h) := v in
  let '(k, w) := kw in
  let t1 := add32 (add32 (add32 (add32 h
              (N.lxor (rotr32 e 6) (N.lxor (rotr32 e 11) (rotr32 e 25))))
              (N.lxor (N.land e f) (N.ldiff g e))) k) w in
  let t2 := add32 (N.lxor (rotr32 a 2) (N.lxor (rotr32 a 13) (rotr32 a 22)))
              (N.lxor (N.land a b) (N.lxor (N.land a c) (N.land b c))) in
  (add32 t1 t2, a, b, c, add32 d t1, e, f, g).

(** [block] on one chunk of 64 bytes: the hash value after it. *)
Definition block (hv : list N) (p : list byte) : list N :=
  let h0 := nth 0 hv 0 in let h1 := nth 1 hv 0 in
  let h2 := nth 2 hv 0 in let h3 := nth 3 hv 0 in
  let h4 := nth 4 hv 0 in let h5 := nth 5 hv 0 in
  let h6 := nth 6 hv 0 in let h7 := nth 7 hv 0 in
  let '(a, b, c, d, e, f, g, h) :=
    fold_left round (combine _K (schedule p)) (h0, h1, h2, h3, h4, h5, h6, h7) in
  [ add32 h0 a; add32 h1 b; add32 h2 c; add32 h3 d;
    add32 h4 e; add32 h5 f; add32 h6 g; add32 h7 h ].

(** The [digest]: the hash value [h], the bytes [x] of the chunk not yet
    full ([nx] is their number), and the count [len] of bytes written, a
    [uint64]. *)
Record digest : Type := mkDigest { h : list N; x : list byte; len : N }.

Definition New : digest := mkDigest init [] 0.

(** [Write]: the bytes are gathered into chunks of 64, and [block] runs on
    each full chunk.  The package copies whole chunks at a time; a byte at
    a time gives the same chunks. *)
Fixpoint Write (d : digest) (p : list byte) : digest :=
  match p with
  | [] => d
  | b :: p' =>
      let x' := x d ++ [b] in
      let len' := N.land (len d + 1) 0xFFFFFFFFFFFFFFFF in
      if Nat.eqb (length x') BlockSize
      then Write (mkDigest (block (h d) x') [] len') p'
      else Write (mkDigest (h d) x' len') p'
  end.

(** [binary.BigEndian.PutUint64] and [PutUint32]. *)
Definition be_bytes (n : nat) (v : N) : list byte :=
  map (fun i => byte_of_N (N.shiftr v (8 * N.of_nat (n - 1 - i)))) (seq 0 n).

(** [checkSum]: a [0x80] byte, zeros up to 56 bytes mod 64, the length in
    bits; then the eight words of the hash value, big-endian. *)
Definition checkSum (d : digest) : list byte :=
  let t := if len d mod 64 <? 56 then 56 - len d mod 64 else 64 + 56 - len d mod 64 in
  let padlen := (byte_of_N 0x80 :: repeat Byte.x00 (N.to_nat t - 1))
                ++ be_bytes 8 (N.land (N.shiftl (len d) 3) 0xFFFFFFFFFFFFFFFF) in
  let d := Write d padlen in
  flat_map (fun i => be_bytes 4 (nth i (h d) 0)) (seq 0 8).

(** [Sum(in)]: the digest appended to [in]; the [digest] itself is copied
    first and stays as it was. *)
Definition Sum (d : digest) (b : list byte) : list byte := b ++ checkSum d.

End sha256.

Arguments sha256.block : simpl never.
Arguments sha256.checkSum : simpl never.

(** ** crypto/hmac, over SHA-256 *)

(** [copy(dst, src)] and the contents of [dst] afterwards. *)
Definition copy (dst src : list byte) : list byte :=
  let n := Nat.min (length dst) (length src) in
  firstn n src ++ skipn n dst.

(** [b ^ c] on bytes. *)
Definition byte_xor (b : byte) (c : N) : byte := byte_of_N (N.lxor (u8 b) c).

Module hmac.

Record hmac : Type := mkHmac {
  opad : list byte;
  ipad : list byte;
  outer : sha256.digest;
  inner : sha256.digest
}.

(** [New(sha256.New, key)]: a key longer than the block size is hashed
    first; the key is copied into the two zeroed pads, which are then
    masked, and the inner hash starts with [ipad]. *)
Definition New (key : list byte) : hmac :=
  let outer := sha256.New in
  let inner := sha256.New in
  let blocksize := sha256.BlockSize in
  let ipad := make blocksize in
  let opad := make blocksize in
  let '(outer, key) :=
    if (blocksize <? length key)%nat then
      let outer := sha256.Write outer key in
      (outer, sha256.Sum outer [])
    else (outer, key) in
  let ipad := copy ipad key in
  let opad := copy opad key in
  let ipad := map (fun b => byte_xor b 0x36) ipad in
  let opad := map (fun b => byte_xor b 0x5c) opad in
  let inner := sha256.Write inner ipad in
  mkHmac opad ipad outer inner.

(** [Write(p)] writes to the inner hash. *)
Definition Write (hm : hmac) (p : list byte) : hmac :=
  mkHmac (opad hm) (ipad hm) (outer hm) (sha256.Write (inner hm) p).

(** [Sum(in)]: the inner digest, hashed after [opad] by the outer hash,
    which is reset first. *)
Definition Sum (hm : hmac) (b : list byte) : list byte :=
  let origLen := length b in
  let b := sha256.Sum (inner hm) b in
  let outer := sha256.New in
  let outer := sha256.Write outer (opad hm) in
  let outer := sha256.Write outer (skipn origLen b) in
  sha256.Sum outer (firstn origLen b).

End hmac.

(** [ComputeHMACDigest]: the HMAC-SHA256 of [message] under [secret]. *)
Definition ComputeHMACDigest (message secret : list byte) : list byte :=
  let h := hmac.New secret in
  let h := hmac.Write h message in
  let hashed := hmac.Sum h [] in
  hashed.

(** ** Vocabulary for the further properties *)

(** The number a byte sequence writes, big-endian. *)
Definition be_value (l : list byte) : N :=
  fold_left (fun acc b => (acc * 256 + u8 b)%N) l 0%N.

(** The number a string of hex digits writes. *)
Definition hex_value (s : gostring) : N :=
  fold_left (fun acc c => (acc * 16 + fst (hex.fromHexChar c))%N) s 0%N.

(** Nibble [i] of a byte sequence, high nibble first. *)
Definition nibble (d : list byte) (i : nat) : N :=
  let v := nth (i / 2) d Byte.x00 in
  if Nat.even i then hex.hi v else hex.lo v.

(** Calling [f] on each element in turn; the first panic ends the run. *)
Fixpoint for_each {A B : Type} (f : A -> go B) (l : list A) : go (list B) :=
  match l with
  | [] => Return []
  | x :: l' => y <- f x ;; ys <- for_each f l' ;; Return (y :: ys)
  end.

(** SHA-256 of a byte sequence written in one piece. *)
Definition Sum256 (data : list byte) : list byte :=
  sha256.Sum (sha256.Write sha256.New data) [].

(** The HMAC key block: the key, hashed first when longer than 64 bytes,
    followed by zeros up to 64 bytes. *)
Definition key_block (key : list byte) : list byte :=
  let key := if (64 <? length key)%nat then Sum256 key else key in
  key ++ repeat Byte.x00 (64 - length key).


(** ** The Go runtime: facts *)

Lemma string_eq_refl (s : gostring) : string_eq s s = true.
Proof.
  induction s as [|c s IH]; simpl; [reflexivity|].
  rewrite IH, (Byte.byte_dec_lb (eq_refl c)). reflexivity.
Qed.

Lemma string_eq_true (s t : gostring) : string_eq s t = true <-> s = t.
Proof.
  split.
  - revert t. induction s as [|a s IH]; intros [|b t] H; simpl in H;
      try discriminate; [reflexivity|].
    apply andb_true_iff in H. destruct H as [Hab Hst].
    apply Byte.byte_dec_bl in Hab. rewrite (IH t Hst), Hab. reflexivity.
  - intros ->. apply string_eq_refl.
Qed.

Lemma string_eq_false (s t : gostring) : string_eq s t = false <-> s <> t.
Proof.
  split.
  - intros H E. apply string_eq_true in E. congruence.
  - intros H. destruct (string_eq s t) eqn:E; [|reflexivity].
    apply string_eq_true in E. contradiction.
Qed.

Lemma len_app {A : Type} (s t : list A) : len (s ++ t) = len s + len t.
Proof. unfold len. rewrite length_app. lia. Qed.

Lemma len_nonneg {A : Type} (s : list A) : 0 <= len s.
Proof. unfold len. lia. Qed.

Lemma index_app_at {A : Type} (pre : list A) (x : A) (post : list A) :
  index (pre ++ x :: post) (len pre) = Return x.
Proof.
  unfold index, len. rewrite length_app. cbn [length].
  destruct ((0 <=? Z.of_nat (length pre)) &&
            (Z.of_nat (length pre) <? Z.of_nat (length pre + S (length post)))) eqn:E.
  - rewrite Nat2Z.id, nth_error_app2 by lia. rewrite Nat.sub_diag. reflexivity.
  - apply andb_false_iff in E.
    destruct E as [E|E]; [apply Z.leb_gt in E | apply Z.ltb_ge in E]; lia.
Qed.

Lemma index_at_len {A : Type} (s : list A) :
  index s (len s) = Panic (IndexOutOfRange (len s) (len s)).
Proof.
  unfold index. rewrite Z.ltb_irrefl, andb_false_r. reflexivity.
Qed.

Lemma slice_from_ok {A : Type} (s : list A) (lo : nat) :
  (lo <= length s)%nat -> slice_from s (Z.of_nat lo) = Return (skipn lo s).
Proof.
  intros H. unfold slice_from, len.
  replace ((0 <=? Z.of_nat lo) && (Z.of_nat lo <=? Z.of_nat (length s))) with true
    by (symmetry; apply andb_true_iff; split; apply Z.leb_le; lia).
  rewrite Nat2Z.id. reflexivity.
Qed.

Lemma slice_from_negative {A : Type} (s : list A) (lo : Z) :
  lo < 0 -> slice_from s lo = Panic (SliceBoundsOutOfRange lo (len s)).
Proof.
  intros H. unfold slice_from.
  replace (0 <=? lo) with false by (symmetry; apply Z.leb_gt; lia).
  reflexivity.
Qed.

(** Copying [src], no longer than the buffer, into the tail of a zeroed
    buffer right-aligns it. *)
Lemma copy_into_make (n : nat) (src : list byte) :
  (length src <= n)%nat ->
  copy_into (make n) (Z.of_nat n - len src) src = Return (repeat Byte.x00 (n - length src) ++ src).
Proof.
  intros H. unfold copy_into, len.
  replace (Z.of_nat n - Z.of_nat (length src)) with (Z.of_nat (n - length src)) by lia.
  rewrite slice_from_ok by (unfold make; rewrite repeat_length; lia).
  unfold bind. rewrite Nat2Z.id. unfold make.
  rewrite length_skipn, repeat_length.
  replace (Nat.min (n - (n - length src)) (length src)) with (length src) by lia.
  rewrite firstn_all.
  rewrite (skipn_all2 (n := length src)) by (rewrite length_skipn, repeat_length; lia).
  rewrite app_nil_r. f_equal. f_equal.
  replace n with ((n - length src) + length src)%nat at 2 by lia.
  rewrite repeat_app, firstn_app, repeat_length, Nat.sub_diag, firstn_O, app_nil_r.
  apply firstn_all2. rewrite repeat_length. lia.
Qed.

(** ** encoding/hex: facts *)

(** Induction on a list two elements at a time, as [Decode] reads it. *)
Lemma list_pairs_ind {A : Type} (P : list A -> Prop) :
  P [] -> (forall x, P [x]) -> (forall x y l, P l -> P (x :: y :: l)) ->
  forall l, P l.
Proof.
  intros H0 H1 H2.
  assert (H : forall l, P l /\ forall x, P (x :: l)).
  { induction l as [|y l [IH1 IH2]]; split; auto. }
  intros l. apply H.
Qed.

(** Facts about single bytes are settled by running through all 256. *)
Ltac by_bytes c := destruct c; vm_compute; try reflexivity; try discriminate; auto.

Lemma fromHexChar_hi (v : byte) :
  hex.fromHexChar (hex.hexchar (hex.hi v)) = (hex.hi v, true).
Proof. by_bytes v. Qed.

Lemma fromHexChar_lo (v : byte) :
  hex.fromHexChar (hex.hexchar (hex.lo v)) = (hex.lo v, true).
Proof. by_bytes v. Qed.

Lemma byte_of_nibbles (v : byte) :
  byte_of_N (N.lor (N.shiftl (hex.hi v) 4) (hex.lo v)) = v.
Proof. by_bytes v. Qed.

(** [fromHexChar] does not tell the cases apart. *)
Lemma fromHexChar_lower (c : byte) : hex.fromHexChar (lower c) = hex.fromHexChar c.
Proof. by_bytes c. Qed.

Lemma fromHexChar_ok (c : byte) : snd (hex.fromHexChar c) = is_hex_digit c.
Proof. by_bytes c. Qed.

Lemma lower_upper (c : byte) : lower (strings.upper c) = lower c.
Proof. by_bytes c. Qed.

Lemma lower_flip_case (c : byte) : lower (flip_case c) = lower c.
Proof. by_bytes c. Qed.

Lemma flip_case_hex_letter (c : byte) : is_hex_letter c = true -> flip_case c <> c.
Proof. by_bytes c. Qed.

Lemma lower_hexchar_hi (v : byte) :
  lower (hex.hexchar (hex.hi v)) = hex.hexchar (hex.hi v).
Proof. by_bytes v. Qed.

Lemma lower_hexchar_lo (v : byte) :
  lower (hex.hexchar (hex.lo v)) = hex.hexchar (hex.lo v).
Proof. by_bytes v. Qed.

Lemma is_lower_hex_hi (v : byte) : is_lower_hex (hex.hexchar (hex.hi v)) = true.
Proof. by_bytes v. Qed.

Lemma is_lower_hex_lo (v : byte) : is_lower_hex (hex.hexchar (hex.lo v)) = true.
Proof. by_bytes v. Qed.

(** On such a character the code's unguarded [ToUpper] and the
    specification's guarded one agree, a digit is not changed, and every
    one of them is ASCII. *)
Lemma upper_lower_hex (c : byte) :
  is_lower_hex c = true -> is_letter_af c = false -> strings.upper c = c.
Proof. by_bytes c. Qed.

Lemma upper_digit (c : byte) : is_digit c = true -> strings.upper c = c.
Proof. by_bytes c. Qed.

Lemma is_digit_not_letter (c : byte) : is_digit c = true -> is_letter_af c = false.
Proof. by_bytes c. Qed.

Lemma is_lower_hex_ascii (c : byte) : is_lower_hex c = true -> (u8 c < 128)%N.
Proof. by_bytes c. Qed.

Lemma EncodeToString_cons (v : byte) (src : list byte) :
  hex.EncodeToString (v :: src) =
  hex.hexchar (hex.hi v) :: hex.hexchar (hex.lo v) :: hex.EncodeToString src.
Proof. reflexivity. Qed.

Lemma EncodeToString_length (src : list byte) :
  length (hex.EncodeToString src) = (2 * length src)%nat.
Proof.
  induction src as [|v src IH]; [reflexivity|].
  rewrite EncodeToString_cons. cbn [length]. rewrite IH. lia.
Qed.

Lemma EncodeToString_lower_hex (src : list byte) :
  Forall (fun c => is_lower_hex c = true) (hex.EncodeToString src).
Proof.
  induction src as [|v src IH]; [constructor|].
  rewrite EncodeToString_cons.
  constructor; [apply is_lower_hex_hi|].
  constructor; [apply is_lower_hex_lo|exact IH].
Qed.

(** [range address] yields one rune per byte: the encoding is ASCII. *)
Lemma EncodeToString_ascii (src : list byte) :
  Forall (fun c => (u8 c < 128)%N) (hex.EncodeToString src).
Proof.
  eapply Forall_impl; [|apply EncodeToString_lower_hex].
  intros c. apply is_lower_hex_ascii.
Qed.

Lemma EncodeToString_lower (src : list byte) :
  map lower (hex.EncodeToString src) = hex.EncodeToString src.
Proof.
  induction src as [|v src IH]; [reflexivity|].
  rewrite EncodeToString_cons. cbn [map].
  rewrite lower_hexchar_hi, lower_hexchar_lo, IH. reflexivity.
Qed.

Lemma Decode_pair (p q : byte) (rest : list byte) :
  hex.Decode (p :: q :: rest) =
  let '(a, ok) := hex.fromHexChar p in
  if negb ok then ([], Some (hex.InvalidByteError p))
  else
    let '(b, ok) := hex.fromHexChar q in
    if negb ok then ([], Some (hex.InvalidByteError q))
    else
      let '(dst, err) := hex.Decode rest in
      (byte_of_N (N.lor (N.shiftl a 4) b) :: dst, err).
Proof. reflexivity. Qed.

(** Decoding any case variant of the encoding of [a] gives [a] back. *)
Lemma Decode_case_variant (a : list byte) :
  forall t, map lower t = hex.EncodeToString a -> hex.Decode t = (a, None).
Proof.
  induction a as [|v a IH]; intros t Ht.
  - destruct t; [reflexivity|discriminate].
  - rewrite EncodeToString_cons in Ht.
    destruct t as [|p [|q t]]; try discriminate.
    cbn [map] in Ht. injection Ht as Hp Hq Ht.
    rewrite Decode_pair.
    rewrite <- (fromHexChar_lower p), Hp, fromHexChar_hi.
    rewrite <- (fromHexChar_lower q), Hq, fromHexChar_lo.
    simpl negb. cbv iota. rewrite (IH t Ht), byte_of_nibbles. reflexivity.
Qed.

Lemma DecodeString_EncodeToString (a : list byte) :
  hex.DecodeString (hex.EncodeToString a) = (a, None).
Proof. apply Decode_case_variant, EncodeToString_lower. Qed.

(** [Decode] succeeds exactly on valid hexadecimal. *)
Lemma Decode_ok_iff (s : gostring) :
  snd (hex.Decode s) = None <-> valid_hex s = true.
Proof.
  unfold valid_hex. induction s as [|x|x y s IH] using list_pairs_ind.
  - simpl. tauto.
  - simpl. destruct (hex.fromHexChar x) as [n []]; simpl; split; discriminate.
  - rewrite Decode_pair.
    change (Nat.even (length (x :: y :: s))) with (Nat.even (length s)).
    change (forallb is_hex_digit (x :: y :: s))
      with (is_hex_digit x && (is_hex_digit y && forallb is_hex_digit s)).
    rewrite <- (fromHexChar_ok x), <- (fromHexChar_ok y).
    destruct (hex.fromHexChar x) as [a [|]]; simpl;
      [|rewrite andb_false_r; split; discriminate].
    destruct (hex.fromHexChar y) as [b [|]]; simpl;
      [|rewrite andb_false_r; split; discriminate].
    destruct (hex.Decode s) as [dst err]. simpl in *.
    rewrite IH. tauto.
Qed.

(** A successful [Decode] yields one byte per two characters. *)
Lemma Decode_length (s : gostring) :
  forall a, hex.Decode s = (a, None) -> length s = (2 * length a)%nat.
Proof.
  induction s as [|x|x y s IH] using list_pairs_ind; intros a H.
  - injection H as <-. reflexivity.
  - simpl in H. destruct (hex.fromHexChar x) as [n []]; discriminate.
  - rewrite Decode_pair in H.
    destruct (hex.fromHexChar x) as [n [|]]; simpl in H; [|discriminate].
    destruct (hex.fromHexChar y) as [m [|]]; simpl in H; [|discriminate].
    destruct (hex.Decode s) as [dst err].
    injection H as <- ->. cbn [length]. rewrite (IH dst eq_refl). lia.
Qed.

(** Two hex digits decode to the byte they spell. *)
Lemma fromHexChar_hi_sound (p q : byte) :
  snd (hex.fromHexChar p) = true -> snd (hex.fromHexChar q) = true ->
  hex.hexchar (hex.hi (byte_of_N (N.lor (N.shiftl (fst (hex.fromHexChar p)) 4)
                                        (fst (hex.fromHexChar q))))) = lower p.
Proof.
  destruct p; (intros Hp; vm_compute in Hp; try discriminate Hp; clear Hp);
    destruct q; (intros Hq; vm_compute in Hq; try discriminate Hq; clear Hq);
    vm_compute; reflexivity.
Qed.

Lemma fromHexChar_lo_sound (p q : byte) :
  snd (hex.fromHexChar p) = true -> snd (hex.fromHexChar q) = true ->
  hex.hexchar (hex.lo (byte_of_N (N.lor (N.shiftl (fst (hex.fromHexChar p)) 4)
                                        (fst (hex.fromHexChar q))))) = lower q.
Proof.
  destruct p; (intros Hp; vm_compute in Hp; try discriminate Hp; clear Hp);
    destruct q; (intros Hq; vm_compute in Hq; try discriminate Hq; clear Hq);
    vm_compute; reflexivity.
Qed.

(** What [Decode] returns without an error spells its input, up to case. *)
Lemma Decode_sound (s : gostring) :
  forall a, hex.Decode s = (a, None) -> map lower s = hex.EncodeToString a.
Proof.
  induction s as [|x|x y s IH] using list_pairs_ind; intros a H.
  - injection H as <-. reflexivity.
  - simpl in H. destruct (hex.fromHexChar x) as [n []]; discriminate.
  - rewrite Decode_pair in H.
    pose proof (fromHexChar_hi_sound x y) as Hhi.
    pose proof (fromHexChar_lo_sound x y) as Hlo.
    destruct (hex.fromHexChar x) as [n [|]]; cbn [negb] in H; cbv iota in H; [|discriminate].
    destruct (hex.fromHexChar y) as [m [|]]; cbn [negb] in H; cbv iota in H; [|discriminate].
    destruct (hex.Decode s) as [dst err].
    injection H as <- ->. cbn [fst snd] in Hhi, Hlo.
    rewrite EncodeToString_cons, (Hhi eq_refl eq_refl), (Hlo eq_refl eq_refl).
    cbn [map]. rewrite (IH dst eq_refl). reflexivity.
Qed.

(** ** strings: facts *)

Lemma HasPrefix_0x (s : gostring) :
  strings.HasPrefix s (lit "0x") = true <-> starts_with_0x s.
Proof.
  unfold starts_with_0x, strings.HasPrefix. split.
  - intros H. apply andb_true_iff in H. destruct H as [_ H].
    apply string_eq_true in H.
    exists (skipn 2 s). rewrite <- (firstn_skipn 2 s) at 1.
    f_equal. exact H.
  - intros [t ->]. apply andb_true_iff. split.
    + apply Z.leb_le. rewrite len_app. pose proof (len_nonneg t) as Ht.
      change (len (lit "0x")) with 2. lia.
    + apply string_eq_true. reflexivity.
Qed.

Lemma HasPrefix_0x_false (s : gostring) :
  strings.HasPrefix s (lit "0x") = false <-> ~ starts_with_0x s.
Proof.
  rewrite <- HasPrefix_0x. destruct (strings.HasPrefix s (lit "0x")); split;
    congruence.
Qed.

(** ** sha3: the digest is 32 bytes *)

Lemma Keccak256_length (p : list byte) : length (sha3.Keccak256 p) = 32%nat.
Proof.
  unfold sha3.Keccak256.
  destruct (sha3.absorb (repeat 0%N 25) 0 p) as [st pos].
  rewrite length_map, length_seq. reflexivity.
Qed.

(** [Keccak] returns 32 bytes on every input. *)
Lemma Keccak_length (input : list byte) : length (Keccak input) = 32%nat.
Proof. apply Keccak256_length. Qed.

Lemma hashHex_length (p : list byte) :
  length (hex.EncodeToString (sha3.Keccak256 p)) = 64%nat.
Proof. rewrite EncodeToString_length, Keccak256_length. reflexivity. Qed.

(** ** Test vectors

    The embedding computes; these are the published vectors of Keccak-256
    and of EIP-55, and the README's calls. *)

Example Keccak256_empty :
  sha3.Keccak256 [] = unhex "c5d2460186f7233c927e7db2dcc703c0e500b653ca82273b7bfad8045d85a470".
Proof. vm_compute. reflexivity. Qed.

Example Keccak256_abc :
  sha3.Keccak256 (lit "abc")
  = unhex "4e03657aea45a94fc7d47ba826c8d667c0d1e6e33a64a036ec44f58fa12d6c45".
Proof. vm_compute. reflexivity. Qed.

Example ToChecksumAddress_eip55_1 :
  ToChecksumAddress (unhex "5aaeb6053f3e94c9b9a09f33669435e7ef1beaed")
  = Return (lit "0x5aAeb6053F3E94C9b9A09f33669435E7Ef1BeAed", None).
Proof. vm_compute. reflexivity. Qed.

Example ToChecksumAddress_eip55_2 :
  ToChecksumAddress (unhex "fb6916095ca1df60bb79ce92ce3ea74c37c5d359")
  = Return (lit "0xfB6916095ca1df60bB79Ce92cE3Ea74c37c5d359", None).
Proof. vm_compute. reflexivity. Qed.

Example ToChecksumAddress_eip55_3 :
  ToChecksumAddress (unhex "dbf03b407c01e7cd3cbea99509d93f8dddc8c6fb")
  = Return (lit "0xdbF03B407c01E7cD3CBea99509d93f8DDDC8C6FB", None).
Proof. vm_compute. reflexivity. Qed.

Example ToChecksumAddress_eip55_4 :
  ToChecksumAddress (unhex "d1220a0cf47c7b9be7a2e6ba89f429762e7b9adb")
  = Return (lit "0xD1220A0cf47c7B9Be7A2E6BA89F429762e7b9aDb", None).
Proof. vm_compute. reflexivity. Qed.

Example ToChecksumAddress_readme :
  ToChecksumAddress readme_address
  = Return (lit "0x1234567890AbcdEF1234567890aBcdef12345678", None).
Proof. vm_compute. reflexivity. Qed.

(** The README validates the all-lowercase spelling, which is not the
    checksummed one. *)
Example IsChecksumAddress_readme :
  IsChecksumAddress (lit "0x1234567890abcdef1234567890abcdef12345678") = Return false /\
  IsChecksumAddress (lit "0x1234567890ABCDEF1234567890ABCDEF12345678") = Return false /\
  IsChecksumAddress (lit "0x1234567890AbcdEF1234567890aBcdef12345678") = Return true.
Proof. vm_compute. repeat split. Qed.

Example PadHexStringTo32Bytes_zz :
  PadHexStringTo32Bytes (lit "zz") = Return ([], Some (hex.InvalidByteError "z"%byte)).
Proof. reflexivity. Qed.

Example PadHexStringTo32Bytes_odd :
  PadHexStringTo32Bytes (lit "0x123") = Return ([], Some hex.ErrLength).
Proof. reflexivity. Qed.

Example PadTo32Bytes_readme :
  PadTo32Bytes [Byte.x12; Byte.x34] = Return (repeat Byte.x00 30 ++ [Byte.x12; Byte.x34]).
Proof. reflexivity. Qed.

Example ConcatBytes_readme :
  ConcatBytes [[Byte.x12; Byte.x34]; [Byte.x56; Byte.x78]]
  = [Byte.x12; Byte.x34; Byte.x56; Byte.x78].
Proof. reflexivity. Qed.

(** ** ToChecksumAddress: the loop *)

(** With a character of [hashHex] for every character of [address], the
    loop runs to its end and has written [cased address hashHex]. *)
Lemma checksum_loop_returns (address : gostring) :
  forall (pre hs : gostring) (sb : strings.Builder),
    (length address <= length hs)%nat ->
    checksum_loop (pre ++ hs) (len pre) address sb = Return (sb ++ cased address hs).
Proof.
  induction address as [|c rest IH]; intros pre hs sb Hlen.
  - simpl. rewrite app_nil_r. reflexivity.
  - destruct hs as [|h hs]; [simpl in Hlen; lia|].
    cbn [checksum_loop cased]. rewrite index_app_at. cbn [bind].
    assert (Hnext : forall sb', checksum_loop (pre ++ h :: hs) (len pre + 1) rest sb'
                                = Return (sb' ++ cased rest hs)).
    { intros sb'.
      replace (pre ++ h :: hs) with ((pre ++ [h]) ++ hs) by (rewrite <- app_assoc; reflexivity).
      replace (len pre + 1) with (len (pre ++ [h])) by (rewrite len_app; reflexivity).
      apply IH. simpl in Hlen. lia. }
    destruct (byte_leb "8"%byte h).
    + change (index (strings.ToUpper [c]) 0) with (Return (A := byte) (strings.upper c)).
      cbn [bind]. rewrite Hnext. unfold strings.WriteRune.
      rewrite <- app_assoc. reflexivity.
    + rewrite Hnext. unfold strings.WriteRune. rewrite <- app_assoc. reflexivity.
Qed.

(** With fewer characters in [hashHex], the loop panics at the first index
    past its end. *)
Lemma checksum_loop_panics (hs : gostring) :
  forall (pre address : gostring) (sb : strings.Builder),
    (length hs < length address)%nat ->
    checksum_loop (pre ++ hs) (len pre) address sb
    = Panic (IndexOutOfRange (len (pre ++ hs)) (len (pre ++ hs))).
Proof.
  induction hs as [|h hs IH]; intros pre address sb Hlen.
  - destruct address as [|c rest]; [simpl in Hlen; lia|].
    cbn [checksum_loop]. rewrite app_nil_r, index_at_len. reflexivity.
  - destruct address as [|c rest]; [simpl in Hlen; lia|].
    cbn [checksum_loop]. rewrite index_app_at. cbn [bind].
    assert (Hnext : forall sb', checksum_loop (pre ++ h :: hs) (len pre + 1) rest sb'
              = Panic (IndexOutOfRange (len (pre ++ h :: hs)) (len (pre ++ h :: hs)))).
    { intros sb'.
      replace (pre ++ h :: hs) with ((pre ++ [h]) ++ hs) by (rewrite <- app_assoc; reflexivity).
      replace (len pre + 1) with (len (pre ++ [h])) by (rewrite len_app; reflexivity).
      apply IH. simpl in Hlen. lia. }
    destruct (byte_leb "8"%byte h).
    + change (index (strings.ToUpper [c]) 0) with (Return (A := byte) (strings.upper c)).
      cbn [bind]. apply Hnext.
    + apply Hnext.
Qed.

(** [ToChecksumAddress] returns on inputs of at most 32 bytes, whose hex
    encoding is no longer than the 64 characters of [hashHex] ... *)
Lemma ToChecksumAddress_returns (a : list byte) :
  (length a <= 32)%nat ->
  ToChecksumAddress a =
  Return (lit "0x" ++ cased (hex.EncodeToString a)
                            (hex.EncodeToString (sha3.Keccak256 (hex.EncodeToString a))),
          None).
Proof.
  intros Hlen. unfold ToChecksumAddress.
  pose proof (checksum_loop_returns (hex.EncodeToString a) []
                (hex.EncodeToString (sha3.Keccak256 (hex.EncodeToString a)))
                (strings.WriteString [] (lit "0x"))) as E.
  cbn [app] in E. change (len (@nil byte)) with 0 in E.
  rewrite E by (rewrite hashHex_length, EncodeToString_length; lia).
  reflexivity.
Qed.

(** ... and panics on every longer one, reading [hashHex[64]]. *)
Lemma ToChecksumAddress_panics (a : list byte) :
  (32 < length a)%nat ->
  ToChecksumAddress a = Panic (IndexOutOfRange 64 64).
Proof.
  intros Hlen. unfold ToChecksumAddress.
  pose proof (checksum_loop_panics
                (hex.EncodeToString (sha3.Keccak256 (hex.EncodeToString a))) []
                (hex.EncodeToString a)
                (strings.WriteString [] (lit "0x"))) as E.
  cbn [app] in E. change (len (@nil byte)) with 0 in E.
  rewrite E by (rewrite hashHex_length, EncodeToString_length; lia).
  cbn [bind]. unfold len. rewrite hashHex_length. reflexivity.
Qed.

(** The code upper-cases without asking whether the character is a letter;
    on the characters of a hex encoding that is the specification's guarded
    step. *)
Lemma code_char_spec (c h : byte) :
  is_lower_hex c = true ->
  (if byte_leb "8"%byte h then strings.upper c else c) = spec_char c (Some h).
Proof.
  intros Hc. unfold spec_char.
  destruct (byte_leb "8"%byte h); [|rewrite andb_false_r; reflexivity].
  rewrite andb_true_r. destruct (is_letter_af c) eqn:E; [reflexivity|].
  apply upper_lower_hex; assumption.
Qed.

Lemma cased_nil (address : gostring) : cased address [] = address.
Proof. destruct address; reflexivity. Qed.

(** The loop's output, index by index, in the specification's words. *)
Lemma cased_by_index (address : gostring) :
  forall hs : gostring,
    Forall (fun c => is_lower_hex c = true) address ->
    cased address hs =
    map (fun i => spec_char (nth i address Byte.x00) (nth_error hs i))
        (seq 0 (length address)).
Proof.
  induction address as [|c rest IH]; intros hs Hhex; [reflexivity|].
  inversion Hhex as [|c' rest' Hc Hrest]; subst.
  cbn [length seq map]. rewrite <- seq_shift, map_map.
  destruct hs as [|h hs].
  - rewrite cased_nil. f_equal.
    rewrite <- (cased_nil rest) at 1. rewrite (IH [] Hrest).
    apply map_ext. intros i. cbn [nth]. destruct i; reflexivity.
  - cbn [cased nth nth_error]. rewrite (code_char_spec c h Hc). f_equal.
    rewrite (IH hs Hrest). reflexivity.
Qed.

(** What [ToChecksumAddress] returns is a case variant of the hex digits of
    its input. *)
Lemma lower_cased (address hs : gostring) :
  map lower (cased address hs) = map lower address.
Proof.
  revert hs. induction address as [|c rest IH]; intros [|h hs]; try reflexivity.
  cbn [cased map]. rewrite IH. f_equal.
  destruct (byte_leb "8"%byte h); [apply lower_upper|reflexivity].
Qed.


(** ** IsChecksumAddress: the three ways to be rejected, and the comparison *)

Lemma IsChecksumAddress_no_prefix (s : gostring) :
  ~ starts_with_0x s -> IsChecksumAddress s = Return false.
Proof.
  intros H. apply HasPrefix_0x_false in H.
  unfold IsChecksumAddress. rewrite H. reflexivity.
Qed.

Lemma IsChecksumAddress_wrong_length (s : gostring) :
  length s <> 42%nat -> IsChecksumAddress s = Return false.
Proof.
  intros H. unfold IsChecksumAddress.
  replace (len s =? 42) with false by (symmetry; apply Z.eqb_neq; unfold len; lia).
  rewrite orb_true_r. reflexivity.
Qed.

(** Past the guard, the tail is sliced without a panic and decoded. *)
Lemma IsChecksumAddress_guarded (s : gostring) :
  strings.HasPrefix s (lit "0x") = true -> length s = 42%nat ->
  IsChecksumAddress s =
  let '(addressHex, err) := hex.DecodeString (skipn 2 s) in
  match err with
  | Some _ => Return false
  | None =>
      '(expectedChecksum, err) <- ToChecksumAddress addressHex ;;
      match err with
      | Some _ => Return false
      | None => Return (string_eq s expectedChecksum)
      end
  end.
Proof.
  intros Hp Hl. unfold IsChecksumAddress. rewrite Hp.
  replace (len s =? 42) with true by (symmetry; apply Z.eqb_eq; unfold len; lia).
  cbn [negb orb]. change 2 with (Z.of_nat 2).
  rewrite (slice_from_ok s 2) by lia. reflexivity.
Qed.

Lemma IsChecksumAddress_not_hex (s : gostring) :
  valid_hex (skipn 2 s) = false -> IsChecksumAddress s = Return false.
Proof.
  intros Hv.
  destruct (strings.HasPrefix s (lit "0x")) eqn:Hp;
    [|apply IsChecksumAddress_no_prefix, HasPrefix_0x_false, Hp].
  destruct (Nat.eq_dec (length s) 42) as [Hl|Hl];
    [|apply IsChecksumAddress_wrong_length, Hl].
  rewrite (IsChecksumAddress_guarded s Hp Hl). unfold hex.DecodeString.
  pose proof (Decode_ok_iff (skipn 2 s)) as Hok.
  destruct (hex.Decode (skipn 2 s)) as [a [e|]]; [reflexivity|].
  cbn [snd] in Hok. rewrite Hv in Hok. destruct Hok as [Hok _].
  discriminate (Hok eq_refl).
Qed.

(** A 42-character string that starts with [0x] and has a valid tail is
    compared with the checksum of the 20 bytes the tail decodes to. *)
Lemma IsChecksumAddress_compares (s : gostring) :
  starts_with_0x s -> length s = 42%nat -> valid_hex (skipn 2 s) = true ->
  exists (a : list byte) (e : gostring),
    hex.DecodeString (skipn 2 s) = (a, None) /\ length a = 20%nat /\
    ToChecksumAddress a = Return (e, None) /\
    IsChecksumAddress s = Return (string_eq s e).
Proof.
  intros Hp Hl Hv. apply HasPrefix_0x in Hp.
  rewrite (IsChecksumAddress_guarded s Hp Hl). unfold hex.DecodeString.
  apply Decode_ok_iff in Hv.
  destruct (hex.Decode (skipn 2 s)) as [a err] eqn:D. cbn [snd] in Hv. subst err.
  assert (Ha : length a = 20%nat).
  { apply Decode_length in D. rewrite length_skipn in D. lia. }
  exists a. eexists. split; [reflexivity|]. split; [exact Ha|].
  rewrite ToChecksumAddress_returns by lia. split; reflexivity.
Qed.

(** On a case variant of the hex digits of a 20-byte [a], the comparison is
    with the checksum of [a]. *)
Lemma IsChecksumAddress_case_variant (a : list byte) (t : gostring) :
  length a = 20%nat -> map lower t = hex.EncodeToString a ->
  exists e, ToChecksumAddress a = Return (e, None) /\
            IsChecksumAddress (lit "0x" ++ t) = Return (string_eq (lit "0x" ++ t) e).
Proof.
  intros Ha Ht.
  assert (D : hex.Decode t = (a, None)) by (apply Decode_case_variant, Ht).
  assert (Hl : length (lit "0x" ++ t) = 42%nat).
  { rewrite length_app. apply Decode_length in D. rewrite D, Ha. reflexivity. }
  destruct (IsChecksumAddress_compares (lit "0x" ++ t)) as (a' & e & D' & _ & He & Hr).
  - exists t. reflexivity.
  - exact Hl.
  - apply Decode_ok_iff. change (skipn 2 (lit "0x" ++ t)) with t. rewrite D. reflexivity.
  - change (skipn 2 (lit "0x" ++ t)) with t in D'. unfold hex.DecodeString in D'.
    rewrite D in D'. injection D' as <-. exists e. split; assumption.
Qed.

Lemma ToChecksumAddress_case_variant (a : list byte) (s : gostring) (err : option hex.error) :
  ToChecksumAddress a = Return (s, err) -> case_variant a s /\ err = None.
Proof.
  intros H. destruct (Nat.le_gt_cases (length a) 32) as [Hl|Hl].
  - rewrite ToChecksumAddress_returns in H by exact Hl. injection H as <- <-.
    split; [|reflexivity]. eexists. split; [reflexivity|].
    rewrite lower_cased. apply EncodeToString_lower.
  - rewrite ToChecksumAddress_panics in H by exact Hl. discriminate.
Qed.

(** Flipping a character that changes under the flip changes the string,
    and leaves a case variant a case variant. *)
Lemma flip_case_at_neq (s : gostring) :
  forall (i : nat) (c : byte),
    nth_error s i = Some c -> flip_case c <> c -> flip_case_at i s <> s.
Proof.
  induction s as [|x s IH]; intros [|i] c Hn Hc; simpl in Hn; try discriminate.
  - injection Hn as ->. simpl. intros E. injection E as E. contradiction.
  - simpl. intros E. injection E as E. exact (IH i c Hn Hc E).
Qed.

Lemma lower_flip_case_at (s : gostring) :
  forall i, map lower (flip_case_at i s) = map lower s.
Proof.
  induction s as [|x s IH]; intros [|i]; simpl; try reflexivity.
  - rewrite lower_flip_case. reflexivity.
  - rewrite IH. reflexivity.
Qed.

Lemma flip_case_at_length (s : gostring) (i : nat) :
  length (flip_case_at i s) = length s.
Proof.
  rewrite <- (length_map lower), lower_flip_case_at, length_map. reflexivity.
Qed.

(** ** The checksum codec: the claims *)

(** C1.  For every 20-byte address [a], validating the encoded form
    succeeds: [ToChecksumAddress(a)] returns a string (and a nil error), and
    [IsChecksumAddress] of that string returns [true]. *)
Theorem IsChecksumAddress_ToChecksumAddress (a : list byte) :
  length a = 20%nat ->
  ('(s, _) <- ToChecksumAddress a ;; IsChecksumAddress s) = Return true.
Proof.
  intros Ha.
  destruct (IsChecksumAddress_case_variant a
              (cased (hex.EncodeToString a)
                     (hex.EncodeToString (sha3.Keccak256 (hex.EncodeToString a)))) Ha)
    as (e & He & Hr).
  { rewrite lower_cased. apply EncodeToString_lower. }
  rewrite ToChecksumAddress_returns in * by lia.
  injection He as <-. cbn [bind]. rewrite Hr, string_eq_refl. reflexivity.
Qed.

(** C1 at the README's address. *)
Lemma IsChecksumAddress_ToChecksumAddress_readme :
  ('(s, _) <- ToChecksumAddress readme_address ;; IsChecksumAddress s) = Return true.
Proof. apply IsChecksumAddress_ToChecksumAddress. reflexivity. Defined.

(** C2.  [ToChecksumAddress] is not total: it returns exactly on the inputs
    of at most 32 bytes.  On a longer input the loop reads [hashHex[64]],
    past the 64 characters of the hash, and the runtime panics; 33 bytes
    are enough.  The empty input does yield ["0x"]. *)
Theorem ToChecksumAddress_returns_iff :
  (forall a : list byte,
      (exists r, ToChecksumAddress a = Return r) <-> (length a <= 32)%nat) /\
  ToChecksumAddress bytes33 = Panic (IndexOutOfRange 64 64) /\
  ToChecksumAddress [] = Return (lit "0x", None).
Proof.
  split; [|split].
  - intros a. split.
    + intros [r Hr]. destruct (Nat.le_gt_cases (length a) 32) as [Hl|Hl]; [exact Hl|].
      rewrite ToChecksumAddress_panics in Hr by exact Hl. discriminate.
    + intros Hl. eexists. apply ToChecksumAddress_returns, Hl.
  - apply ToChecksumAddress_panics. unfold bytes33. rewrite repeat_length. lia.
  - reflexivity.
Qed.

(** C3.  On every input of at most 32 bytes [ToChecksumAddress] returns
    the string the specification describes: ["0x"], then, for each index
    [i] of the lowercase hex encoding [addrHex] of the input, the uppercase
    form of the character when it is a letter [a-f] and the character at
    index [i] of the hex encoding of the Keccak-256 hash of [addrHex]'s
    bytes is at least ['8'], and the character unchanged otherwise; a
    numeric digit of [addrHex] is the same digit in the output.  It does
    not do so on every input: past 32 bytes there is no hash character at
    index 64, the code panics and builds no output; 33 bytes are enough. *)
Theorem ToChecksumAddress_spec :
  (forall a : list byte,
      ToChecksumAddress a =
      if (length a <=? 32)%nat then Return (spec_Encode a, None)
      else Panic (IndexOutOfRange 64 64)) /\
  (forall (a : list byte) (i : nat) (c : byte),
      nth_error (hex.EncodeToString a) i = Some c -> is_digit c = true ->
      nth_error (spec_Encode a) (2 + i) = Some c) /\
  ToChecksumAddress bytes33 <> Return (spec_Encode bytes33, None).
Proof.
  split; [|split].
  - intros a. destruct (length a <=? 32)%nat eqn:E.
    + apply Nat.leb_le in E. rewrite ToChecksumAddress_returns by exact E.
      unfold spec_Encode.
      rewrite cased_by_index by apply EncodeToString_lower_hex. reflexivity.
    + apply Nat.leb_gt in E. apply ToChecksumAddress_panics, E.
  - intros a i c Hi Hc. unfold spec_Encode.
    change (nth_error (lit "0x" ++ ?l) (2 + i)) with (nth_error l i).
    assert (Hlt : (i < length (hex.EncodeToString a))%nat)
      by (apply nth_error_Some; congruence).
    rewrite nth_error_map, nth_error_seq.
    replace (i <? length (hex.EncodeToString a))%nat with true
      by (symmetry; apply Nat.ltb_lt; exact Hlt).
    cbn [option_map Nat.add].
    replace (nth i (hex.EncodeToString a) Byte.x00) with c
      by (symmetry; apply nth_error_nth, Hi).
    unfold spec_char. rewrite (is_digit_not_letter c Hc).
    destruct (nth_error (hex.EncodeToString (sha3.Keccak256 (hex.EncodeToString a))) i);
      reflexivity.
  - rewrite ToChecksumAddress_panics by (unfold bytes33; rewrite repeat_length; lia).
    discriminate.
Qed.

(** C4.  For every string [s], [IsChecksumAddress(s)] returns [false] (a
    boolean: the function has no error result, and a decode failure ends in
    [false]) when [s] does not start with ["0x"], or its length is not 42,
    or its tail after the prefix is not valid hexadecimal.  Otherwise the
    tail decodes to 20 bytes, [ToChecksumAddress] of them returns a string
    [e], and [IsChecksumAddress(s)] returns [true] if and only if [s] is
    [e], byte for byte.  Lengths are in bytes, as Go's [len]; on a string
    with a valid tail they are the characters. *)
Theorem IsChecksumAddress_spec (s : gostring) :
  ((~ starts_with_0x s \/ length s <> 42%nat \/ valid_hex (skipn 2 s) = false) ->
   IsChecksumAddress s = Return false) /\
  (starts_with_0x s -> length s = 42%nat -> valid_hex (skipn 2 s) = true ->
   exists (a : list byte) (e : gostring),
     hex.DecodeString (skipn 2 s) = (a, None) /\
     map lower (skipn 2 s) = hex.EncodeToString a /\
     length a = 20%nat /\
     ToChecksumAddress a = Return (e, None) /\
     IsChecksumAddress s = Return (string_eq s e) /\
     (IsChecksumAddress s = Return true <-> s = e)).
Proof.
  split.
  - intros [H|[H|H]].
    + apply IsChecksumAddress_no_prefix, H.
    + apply IsChecksumAddress_wrong_length, H.
    + apply IsChecksumAddress_not_hex, H.
  - intros Hp Hl Hv.
    destruct (IsChecksumAddress_compares s Hp Hl Hv) as (a & e & D & Ha & He & Hr).
    exists a, e. repeat split; try assumption.
    + apply Decode_sound, D.
    + rewrite Hr. intros E. injection E as E. apply string_eq_true, E.
    + intros ->. rewrite Hr, string_eq_refl. reflexivity.
Qed.

(** C5.  For every 20-byte address [a], exactly one checksummed string
    validates: [ToChecksumAddress(a)] returns a case variant [s] of the hex
    digits of [a] that [IsChecksumAddress] accepts, every case variant that
    [IsChecksumAddress] accepts is [s], and flipping the case of any one
    alphabetic hex character of [s] makes [IsChecksumAddress] return
    [false]. *)
Theorem ToChecksumAddress_unique (a : list byte) :
  length a = 20%nat ->
  exists s : gostring,
    ToChecksumAddress a = Return (s, None) /\
    case_variant a s /\
    IsChecksumAddress s = Return true /\
    (forall t : gostring,
        case_variant a t -> IsChecksumAddress t = Return true -> t = s) /\
    (forall (i : nat) (c : byte),
        nth_error s i = Some c -> is_hex_letter c = true ->
        IsChecksumAddress (flip_case_at i s) = Return false).
Proof.
  intros Ha.
  assert (Hs : ToChecksumAddress a =
               Return (lit "0x" ++ cased (hex.EncodeToString a)
                         (hex.EncodeToString (sha3.Keccak256 (hex.EncodeToString a))), None))
    by (apply ToChecksumAddress_returns; lia).
  set (body := cased _ _) in Hs.
  assert (Hbody : map lower body = hex.EncodeToString a)
    by (unfold body; rewrite lower_cased; apply EncodeToString_lower).
  exists (lit "0x" ++ body). split; [exact Hs|]. split; [|split; [|split]].
  - exists body. split; [reflexivity|exact Hbody].
  - destruct (IsChecksumAddress_case_variant a body Ha Hbody) as (e & He & Hr).
    rewrite Hs in He. injection He as <-. rewrite Hr, string_eq_refl. reflexivity.
  - intros t (u & -> & Hu) Ht.
    destruct (IsChecksumAddress_case_variant a u Ha Hu) as (e & He & Hr).
    rewrite Hs in He. injection He as <-. rewrite Hr in Ht. injection Ht as Ht.
    apply string_eq_true, Ht.
  - intros i c Hi Hc.
    assert (Hneq : flip_case_at i (lit "0x" ++ body) <> lit "0x" ++ body)
      by (apply (flip_case_at_neq _ i c Hi), flip_case_hex_letter, Hc).
    destruct i as [|[|j]].
    + injection Hi as <-. discriminate Hc.
    + injection Hi as <-. discriminate Hc.
    + change (flip_case_at (S (S j)) (lit "0x" ++ body))
        with (lit "0x" ++ flip_case_at j body) in *.
      destruct (IsChecksumAddress_case_variant a (flip_case_at j body) Ha) as (e & He & Hr).
      { rewrite lower_flip_case_at. exact Hbody. }
      rewrite Hs in He. injection He as <-. rewrite Hr. f_equal.
      apply string_eq_false, Hneq.
Qed.

(** C5 at the README's address. *)
Lemma ToChecksumAddress_unique_readme :
  exists s : gostring,
    ToChecksumAddress readme_address = Return (s, None) /\
    case_variant readme_address s /\
    IsChecksumAddress s = Return true /\
    (forall t : gostring,
        case_variant readme_address t -> IsChecksumAddress t = Return true -> t = s) /\
    (forall (i : nat) (c : byte),
        nth_error s i = Some c -> is_hex_letter c = true ->
        IsChecksumAddress (flip_case_at i s) = Return false).
Proof. apply ToChecksumAddress_unique. reflexivity. Defined.

(** C10.  [IsChecksumAddress] is total: on every string it returns a
    boolean and does not panic.  Whenever it gets as far as calling
    [ToChecksumAddress] (the prefix and the length are right and the tail
    decodes without error), the argument is exactly 20 bytes, on which
    [ToChecksumAddress] returns. *)
Theorem IsChecksumAddress_total (s : gostring) :
  (exists b : bool, IsChecksumAddress s = Return b) /\
  (forall a : list byte,
      strings.HasPrefix s (lit "0x") = true -> len s = 42 ->
      hex.DecodeString (skipn 2 s) = (a, None) ->
      length a = 20%nat /\ exists e, ToChecksumAddress a = Return (e, None)).
Proof.
  split.
  - destruct (strings.HasPrefix s (lit "0x")) eqn:Hp;
      [|exists false; apply IsChecksumAddress_no_prefix, HasPrefix_0x_false, Hp].
    destruct (Nat.eq_dec (length s) 42) as [Hl|Hl];
      [|exists false; apply IsChecksumAddress_wrong_length, Hl].
    destruct (valid_hex (skipn 2 s)) eqn:Hv;
      [|exists false; apply IsChecksumAddress_not_hex, Hv].
    apply HasPrefix_0x in Hp.
    destruct (IsChecksumAddress_compares s Hp Hl Hv) as (a & e & _ & _ & _ & Hr).
    eexists. exact Hr.
  - intros a Hp Hl D. unfold hex.DecodeString in D.
    assert (Ha : length a = 20%nat).
    { apply Decode_length in D. rewrite length_skipn in D. unfold len in Hl. lia. }
    split; [exact Ha|]. eexists. apply ToChecksumAddress_returns. lia.
Qed.

(** ** Padding to 32 bytes *)

Lemma right_aligned_32_length (data : list byte) :
  (length data <= 32)%nat -> length (right_aligned_32 data) = 32%nat.
Proof.
  intros H. unfold right_aligned_32. rewrite length_app, repeat_length. lia.
Qed.

Lemma PadTo32Bytes_long (x : list byte) :
  (32 <= length x)%nat -> PadTo32Bytes x = Return x.
Proof.
  intros H. unfold PadTo32Bytes.
  replace (32 <=? len x) with true by (symmetry; apply Z.leb_le; unfold len; lia).
  reflexivity.
Qed.

Lemma PadTo32Bytes_short (x : list byte) :
  (length x < 32)%nat -> PadTo32Bytes x = Return (right_aligned_32 x).
Proof.
  intros H. unfold PadTo32Bytes.
  replace (32 <=? len x) with false by (symmetry; apply Z.leb_gt; unfold len; lia).
  change 32 with (Z.of_nat 32). apply copy_into_make. lia.
Qed.

(** C6.  [PadTo32Bytes] is idempotent on every input [x]: padding the
    padded value returns the padded value.  An input of 32 bytes or more is
    returned unchanged, not truncated; a shorter one yields 32 bytes, the
    input right-aligned after leading zero bytes. *)
Theorem PadTo32Bytes_idempotent (x : list byte) :
  (exists y, PadTo32Bytes x = Return y /\ PadTo32Bytes y = Return y) /\
  ((32 <= length x)%nat -> PadTo32Bytes x = Return x) /\
  ((length x < 32)%nat ->
   PadTo32Bytes x = Return (repeat Byte.x00 (32 - length x) ++ x) /\
   length (repeat Byte.x00 (32 - length x) ++ x) = 32%nat).
Proof.
  split; [|split].
  - destruct (Nat.le_gt_cases 32 (length x)) as [H|H].
    + exists x. split; apply PadTo32Bytes_long, H.
    + exists (right_aligned_32 x). split; [apply PadTo32Bytes_short, H|].
      apply PadTo32Bytes_long. rewrite right_aligned_32_length; lia.
  - apply PadTo32Bytes_long.
  - intros H. split; [apply PadTo32Bytes_short, H|].
    apply right_aligned_32_length. lia.
Qed.

(** The code's prefix test and slice are the specification's stripping. *)
Lemma strip_0x_prefixed (t : gostring) : strip_0x (lit "0x" ++ t) = t.
Proof. reflexivity. Qed.

Lemma strip_0x_not_prefixed (s : gostring) :
  strings.HasPrefix s (lit "0x") = false -> strip_0x s = s.
Proof.
  intros H. destruct s as [|c0 [|c1 t]]; try reflexivity.
  unfold strip_0x. destruct (Byte.eqb c0 "0"%byte && Byte.eqb c1 "x"%byte) eqn:E;
    [|reflexivity].
  apply andb_true_iff in E. destruct E as [E0 E1].
  apply Byte.byte_dec_bl in E0, E1. subst.
  assert (Ht : strings.HasPrefix (lit "0x" ++ t) (lit "0x") = true)
    by (apply HasPrefix_0x; exists t; reflexivity).
  change (lit "0x" ++ t) with ("0"%byte :: "x"%byte :: t) in Ht. congruence.
Qed.

Lemma PadHexStringTo32Bytes_decodes (s : gostring) :
  PadHexStringTo32Bytes s =
  let '(data, err) := hex.DecodeString (strip_0x s) in
  match err with
  | Some e => Return ([], Some e)
  | None =>
      paddedData <- copy_into (make 32) (32 - len data) data ;;
      Return (paddedData, None)
  end.
Proof.
  unfold PadHexStringTo32Bytes.
  destruct (strings.HasPrefix s (lit "0x")) eqn:Hp.
  - apply HasPrefix_0x in Hp. destruct Hp as [t ->].
    change 2 with (Z.of_nat 2). rewrite slice_from_ok by (rewrite length_app; simpl; lia).
    reflexivity.
  - rewrite (strip_0x_not_prefixed s Hp). reflexivity.
Qed.

Lemma PadHexStringTo32Bytes_short (s : gostring) (data : list byte) :
  map lower (strip_0x s) = hex.EncodeToString data -> (length data <= 32)%nat ->
  PadHexStringTo32Bytes s = Return (right_aligned_32 data, None).
Proof.
  intros Hs Hl. rewrite PadHexStringTo32Bytes_decodes. unfold hex.DecodeString.
  rewrite (Decode_case_variant data _ Hs).
  change 32 with (Z.of_nat 32). rewrite copy_into_make by exact Hl. reflexivity.
Qed.

Lemma PadHexStringTo32Bytes_long (s : gostring) (data : list byte) :
  map lower (strip_0x s) = hex.EncodeToString data -> (32 < length data)%nat ->
  PadHexStringTo32Bytes s = Panic (SliceBoundsOutOfRange (32 - len data) 32).
Proof.
  intros Hs Hl. rewrite PadHexStringTo32Bytes_decodes. unfold hex.DecodeString.
  rewrite (Decode_case_variant data _ Hs). unfold copy_into.
  rewrite slice_from_negative by (unfold len; lia). reflexivity.
Qed.

(** C7.  [PadHexStringTo32Bytes] strips an optional ["0x"] prefix.  It
    returns a decode error (with a nil slice) exactly when what remains is
    not valid hexadecimal (a character that is no hex digit, or an odd
    length).
    Valid hexadecimal spells some bytes; when they are at most 32, the
    result is exactly 32 bytes: the decoded bytes right-aligned, every byte
    before them zero.  ["0x1234"] yields 30 zero bytes, then [0x12],
    [0x34]. *)
Theorem PadHexStringTo32Bytes_spec (s : gostring) :
  ((exists r e, PadHexStringTo32Bytes s = Return (r, Some e)) <->
   valid_hex (strip_0x s) = false) /\
  (valid_hex (strip_0x s) = false ->
   exists e, PadHexStringTo32Bytes s = Return ([], Some e)) /\
  (valid_hex (strip_0x s) = true ->
   exists data, map lower (strip_0x s) = hex.EncodeToString data) /\
  (forall data : list byte,
      map lower (strip_0x s) = hex.EncodeToString data -> (length data <= 32)%nat ->
      PadHexStringTo32Bytes s = Return (repeat Byte.x00 (32 - length data) ++ data, None) /\
      length (repeat Byte.x00 (32 - length data) ++ data) = 32%nat) /\
  PadHexStringTo32Bytes (lit "0x1234") =
    Return (repeat Byte.x00 30 ++ [Byte.x12; Byte.x34], None).
Proof.
  assert (Herr : valid_hex (strip_0x s) = false ->
                 exists e, PadHexStringTo32Bytes s = Return ([], Some e)).
  { intros Hv. rewrite PadHexStringTo32Bytes_decodes. unfold hex.DecodeString.
    pose proof (Decode_ok_iff (strip_0x s)) as Hok.
    destruct (hex.Decode (strip_0x s)) as [data [e|]]; cbn [snd] in Hok.
    - exists e. reflexivity.
    - destruct Hok as [Hok _]. rewrite (Hok eq_refl) in Hv. discriminate. }
  split; [|split; [exact Herr|split; [|split]]].
  - split.
    + intros (r & e & Hr). destruct (valid_hex (strip_0x s)) eqn:Hv; [|reflexivity].
      apply Decode_ok_iff in Hv.
      rewrite PadHexStringTo32Bytes_decodes in Hr. unfold hex.DecodeString in Hr.
      destruct (hex.Decode (strip_0x s)) as [data err]. cbn [snd] in Hv. subst err.
      destruct (copy_into (make 32) (32 - len data) data); discriminate.
    + intros Hv. destruct (Herr Hv) as [e He]. exists [], e. exact He.
  - intros Hv. apply Decode_ok_iff in Hv.
    destruct (hex.Decode (strip_0x s)) as [data err] eqn:D. cbn [snd] in Hv. subst err.
    exists data. apply Decode_sound, D.
  - intros data Hs Hl. split.
    + apply PadHexStringTo32Bytes_short; assumption.
    + apply right_aligned_32_length, Hl.
  - reflexivity.
Qed.

(** C8.  On a decoded length over 32 [PadHexStringTo32Bytes] does not
    return the rightmost 32 bytes: the slice [paddedData[32-len(data):]]
    has a negative bound and the runtime panics.  For the hex encoding of
    any [data] after ["0x"], the function pads when [data] is at most 32
    bytes and panics otherwise; 33 bytes are enough. *)
Theorem PadHexStringTo32Bytes_over_32 :
  (forall data : list byte,
      PadHexStringTo32Bytes (lit "0x" ++ hex.EncodeToString data) =
      if (length data <=? 32)%nat then Return (right_aligned_32 data, None)
      else Panic (SliceBoundsOutOfRange (32 - len data) 32)) /\
  PadHexStringTo32Bytes (lit "0x" ++ hex.EncodeToString bytes33) =
    Panic (SliceBoundsOutOfRange (-1) 32).
Proof.
  split.
  - intros data. destruct (length data <=? 32)%nat eqn:E.
    + apply Nat.leb_le in E. apply PadHexStringTo32Bytes_short; [|exact E].
      rewrite strip_0x_prefixed. apply EncodeToString_lower.
    + apply Nat.leb_gt in E. apply PadHexStringTo32Bytes_long; [|exact E].
      rewrite strip_0x_prefixed. apply EncodeToString_lower.
  - reflexivity.
Qed.

(** ** Concatenation *)

Lemma ConcatBytes_from (bytes : list (list byte)) :
  forall result : list byte,
    fold_left (fun result b => result ++ b) bytes result = result ++ concat bytes.
Proof.
  induction bytes as [|b bytes IH]; intros result; simpl.
  - rewrite app_nil_r. reflexivity.
  - rewrite IH, app_assoc. reflexivity.
Qed.

Lemma ConcatBytes_size_from (bytes : list (list byte)) :
  forall size : Z,
    fold_left (fun size b => size + len b) bytes size = size + len (concat bytes).
Proof.
  induction bytes as [|b bytes IH]; intros size; simpl.
  - unfold len. simpl. lia.
  - rewrite IH, len_app. lia.
Qed.

(** C9.  For every list of arguments, [ConcatBytes] returns the bytes of
    the arguments in the order given, with nothing between them; its length
    is the sum of the arguments' lengths, which is the capacity the code
    allocates.  Two arguments [a], [b] give [a] followed by [b]; no argument
    gives the empty sequence. *)
Theorem ConcatBytes_spec (bytes : list (list byte)) :
  ConcatBytes bytes = concat bytes /\
  length (ConcatBytes bytes) = list_sum (map (@length byte) bytes) /\
  len (ConcatBytes bytes) = ConcatBytes_size bytes /\
  (forall a b : list byte, ConcatBytes [a; b] = a ++ b) /\
  ConcatBytes [] = [].
Proof.
  assert (H : ConcatBytes bytes = concat bytes)
    by (unfold ConcatBytes; rewrite ConcatBytes_from; reflexivity).
  split; [exact H|]. split; [|split; [|split]].
  - rewrite H. clear H. induction bytes as [|b bytes IH]; [reflexivity|].
    simpl. rewrite length_app, IH. reflexivity.
  - rewrite H. unfold ConcatBytes_size. rewrite ConcatBytes_size_from. lia.
  - intros a b. unfold ConcatBytes. simpl. reflexivity.
  - reflexivity.
Qed.

(** * Further properties of the code *)

(** ** The checksum codec *)



(** Two inputs on which [ToChecksumAddress] returns the same result are the
    same bytes. *)
Theorem ToChecksumAddress_injective (a b : list byte) (r : gostring * option hex.error) :
  ToChecksumAddress a = Return r -> ToChecksumAddress b = Return r -> a = b.
Proof.
  destruct r as [s err]. intros Ha Hb.
  apply ToChecksumAddress_case_variant in Ha, Hb.
  destruct Ha as [(t & -> & Ht) _]. destruct Hb as [(u & Hu & Hb) _].
  injection Hu as <-.
  pose proof (Decode_case_variant a t Ht) as Da.
  pose proof (Decode_case_variant b t Hb) as Db.
  congruence.
Qed.

Lemma ToChecksumAddress_injective_readme :
  unhex "1234567890ABCDEF1234567890ABCDEF12345678" = readme_address.
Proof.
  apply (ToChecksumAddress_injective _ _
           (lit "0x1234567890AbcdEF1234567890aBcdef12345678", None));
    vm_compute; reflexivity.
Defined.

(** [IsChecksumAddress] accepts exactly the strings [ToChecksumAddress]
    returns for addresses of 20 bytes. *)
Theorem IsChecksumAddress_true_iff (s : gostring) :
  IsChecksumAddress s = Return true <->
  exists a : list byte, length a = 20%nat /\ ToChecksumAddress a = Return (s, None).
Proof.
  split.
  - intros H.
    destruct (strings.HasPrefix s (lit "0x")) eqn:Hp;
      [|rewrite IsChecksumAddress_no_prefix in H
          by (apply HasPrefix_0x_false, Hp); discriminate].
    destruct (Nat.eq_dec (length s) 42) as [Hl|Hl];
      [|rewrite IsChecksumAddress_wrong_length in H by exact Hl; discriminate].
    destruct (valid_hex (skipn 2 s)) eqn:Hv;
      [|rewrite IsChecksumAddress_not_hex in H by exact Hv; discriminate].
    apply HasPrefix_0x in Hp.
    destruct (IsChecksumAddress_compares s Hp Hl Hv) as (a & e & _ & Ha & He & Hr).
    rewrite Hr in H. injection H as H. apply string_eq_true in H. subst e.
    exists a. split; assumption.
  - intros (a & Ha & Hs).
    destruct (ToChecksumAddress_case_variant a s None Hs) as [(t & -> & Ht) _].
    destruct (IsChecksumAddress_case_variant a t Ha Ht) as (e & He & Hr).
    rewrite Hs in He. injection He as <-. rewrite Hr, string_eq_refl. reflexivity.
Qed.

Lemma cased_nth (address : gostring) :
  forall (hs : gostring) (i : nat) (c h : byte),
    nth_error address i = Some c -> nth_error hs i = Some h ->
    nth_error (cased address hs) i =
    Some (if byte_leb "8"%byte h then strings.upper c else c).
Proof.
  induction address as [|x rest IH]; intros [|y hs] [|i] c h Hc Hh;
    simpl in Hc, Hh; try discriminate.
  - injection Hc as ->. injection Hh as ->. reflexivity.
  - cbn [cased nth_error]. apply IH; assumption.
Qed.

Lemma hexchar_hi_ge_8 (v : byte) :
  byte_leb "8"%byte (hex.hexchar (hex.hi v)) = (8 <=? hex.hi v)%N.
Proof. by_bytes v. Qed.

Lemma hexchar_lo_ge_8 (v : byte) :
  byte_leb "8"%byte (hex.hexchar (hex.lo v)) = (8 <=? hex.lo v)%N.
Proof. by_bytes v. Qed.

(** Character [i] of a hex encoding is the digit of nibble [i]. *)
Lemma EncodeToString_nth (l : list byte) :
  forall i : nat, (i < 2 * length l)%nat ->
    nth_error (hex.EncodeToString l) i = Some (hex.hexchar (nibble l i)).
Proof.
  induction l as [|v l IH]; intros i Hi; [simpl in Hi; lia|].
  rewrite EncodeToString_cons.
  destruct i as [|[|i]]; [reflexivity|reflexivity|].
  cbn [nth_error]. rewrite IH by (cbn [length] in Hi; lia).
  unfold nibble. change (Nat.even (S (S i))) with (Nat.even i).
  replace (S (S i) / 2)%nat with (S (i / 2))
    by (change (S (S i)) with (2 + i)%nat;
        rewrite (Nat.add_comm 2 i); change 2%nat with (1 * 2)%nat at 2;
        rewrite Nat.div_add by lia; lia).
  reflexivity.
Qed.

Lemma nibble_ge_8 (l : list byte) (i : nat) :
  byte_leb "8"%byte (hex.hexchar (nibble l i)) = (8 <=? nibble l i)%N.
Proof.
  unfold nibble. destruct (Nat.even i); [apply hexchar_hi_ge_8|apply hexchar_lo_ge_8].
Qed.

(** The EIP-55 rule in terms of the digest: character [i] of the hex
    encoding of the input is upper-cased exactly when nibble [i] of
    [Keccak] of that encoding is 8 or more, that is when bit [4 * i] of the
    digest is set. *)
Theorem ToChecksumAddress_hash_nibble (a : list byte) (i : nat) (c : byte) :
  (length a <= 32)%nat ->
  nth_error (hex.EncodeToString a) i = Some c ->
  exists s : gostring,
    ToChecksumAddress a = Return (s, None) /\
    nth_error s (2 + i) =
    Some (if (8 <=? nibble (Keccak (hex.EncodeToString a)) i)%N
          then strings.upper c else c) /\
    ((8 <=? nibble (Keccak (hex.EncodeToString a)) i)%N =
     N.testbit (u8 (nth (i / 2) (Keccak (hex.EncodeToString a)) Byte.x00))
               (if Nat.even i then 7 else 3)).
Proof.
  intros Hl Hc. rewrite ToChecksumAddress_returns by exact Hl.
  eexists. split; [reflexivity|]. split.
  - change (nth_error (lit "0x" ++ ?t) (2 + i)) with (nth_error t i).
    assert (Hi : (i < length (hex.EncodeToString a))%nat)
      by (apply nth_error_Some; congruence).
    rewrite EncodeToString_length in Hi.
    rewrite (cased_nth _ _ i c (hex.hexchar (nibble (sha3.Keccak256 (hex.EncodeToString a)) i)) Hc).
    + rewrite nibble_ge_8. reflexivity.
    + apply EncodeToString_nth. rewrite Keccak256_length. lia.
  - unfold nibble. generalize (nth (i / 2) (Keccak (hex.EncodeToString a)) Byte.x00).
    intros v. destruct (Nat.even i); by_bytes v.
Qed.

Lemma ToChecksumAddress_hash_nibble_readme :
  exists s : gostring,
    ToChecksumAddress readme_address = Return (s, None) /\
    nth_error s (2 + 10) =
    Some (if (8 <=? nibble (Keccak (hex.EncodeToString readme_address)) 10)%N
          then strings.upper "a"%byte else "a"%byte) /\
    ((8 <=? nibble (Keccak (hex.EncodeToString readme_address)) 10)%N =
     N.testbit (u8 (nth (10 / 2) (Keccak (hex.EncodeToString readme_address)) Byte.x00))
               (if Nat.even 10 then 7 else 3)).
Proof.
  apply ToChecksumAddress_hash_nibble; [vm_compute; lia|reflexivity].
Defined.

Lemma cased_digits (address : gostring) :
  forall hs : gostring, forallb is_digit address = true -> cased address hs = address.
Proof.
  induction address as [|c rest IH]; intros [|h hs] H; try reflexivity.
  cbn [forallb] in H. apply andb_true_iff in H. destruct H as [Hc Hrest].
  cbn [cased]. rewrite (IH hs Hrest), (upper_digit c Hc).
  destruct (byte_leb "8"%byte h); reflexivity.
Qed.

Lemma lower_digit (c : byte) : is_digit c = true -> lower c = c.
Proof. by_bytes c. Qed.

Lemma is_digit_hex_digit (c : byte) : is_digit c = true -> is_hex_digit c = true.
Proof. by_bytes c. Qed.

(** A string of ["0x"] and 40 decimal digits is always accepted: with no
    letter in it there is no case to get wrong. *)
Theorem IsChecksumAddress_digits_only (t : gostring) :
  length t = 40%nat -> forallb is_digit t = true ->
  IsChecksumAddress (lit "0x" ++ t) = Return true.
Proof.
  intros Hl Hd.
  assert (Hv : valid_hex t = true).
  { unfold valid_hex. rewrite Hl. apply forallb_forall. intros c Hc.
    apply is_digit_hex_digit. rewrite forallb_forall in Hd. apply Hd, Hc. }
  apply Decode_ok_iff in Hv.
  destruct (hex.Decode t) as [a err] eqn:D. cbn [snd] in Hv. subst err.
  assert (Ha : length a = 20%nat) by (apply Decode_length in D; lia).
  assert (Ht : map lower t = t).
  { rewrite <- (map_id t) at 2. apply map_ext_in. intros c Hc.
    apply lower_digit. rewrite forallb_forall in Hd. apply Hd, Hc. }
  pose proof (Decode_sound t a D) as He. rewrite Ht in He.
  destruct (IsChecksumAddress_case_variant a t Ha) as (e & Hs & Hr);
    [rewrite Ht; exact He|].
  rewrite ToChecksumAddress_returns in Hs by lia. injection Hs as <-.
  rewrite <- He, cased_digits in Hr by exact Hd.
  rewrite Hr, string_eq_refl. reflexivity.
Qed.

Lemma IsChecksumAddress_digits_only_zero :
  IsChecksumAddress (lit "0x" ++ repeat "0"%byte 40) = Return true.
Proof. apply IsChecksumAddress_digits_only; reflexivity. Defined.

(** What [ToChecksumAddress] returns is input [PadHexStringTo32Bytes]
    accepts: it gives the input bytes back, right-aligned in 32 bytes (an
    address of 20 bytes after 12 zero bytes). *)
Theorem PadHexStringTo32Bytes_ToChecksumAddress (a : list byte) :
  (length a <= 32)%nat ->
  ('(s, _) <- ToChecksumAddress a ;; PadHexStringTo32Bytes s) =
  Return (repeat Byte.x00 (32 - length a) ++ a, None).
Proof.
  intros Hl. rewrite ToChecksumAddress_returns by exact Hl. cbn [bind].
  apply PadHexStringTo32Bytes_short; [|exact Hl].
  rewrite strip_0x_prefixed, lower_cased. apply EncodeToString_lower.
Qed.

Lemma PadHexStringTo32Bytes_ToChecksumAddress_readme :
  ('(s, _) <- ToChecksumAddress readme_address ;; PadHexStringTo32Bytes s) =
  Return (repeat Byte.x00 (32 - length readme_address) ++ readme_address, None).
Proof. apply PadHexStringTo32Bytes_ToChecksumAddress. vm_compute. lia. Defined.

(** ** Padding to 32 bytes *)

Lemma hexchar_lo_not_x (v : byte) : Byte.eqb (hex.hexchar (hex.lo v)) "x"%byte = false.
Proof. by_bytes v. Qed.

(** A hex encoding does not start with ["0x"]: its second character is a
    hex digit. *)
Lemma strip_0x_EncodeToString (data : list byte) :
  strip_0x (hex.EncodeToString data) = hex.EncodeToString data.
Proof.
  destruct data as [|v data]; [reflexivity|].
  rewrite EncodeToString_cons. unfold strip_0x.
  rewrite hexchar_lo_not_x, andb_false_r. reflexivity.
Qed.

Lemma PadTo32Bytes_right_aligned (x : list byte) :
  (length x <= 32)%nat -> PadTo32Bytes x = Return (right_aligned_32 x).
Proof.
  intros H. destruct (Nat.eq_dec (length x) 32) as [E|E].
  - rewrite PadTo32Bytes_long by lia. unfold right_aligned_32. rewrite E. reflexivity.
  - apply PadTo32Bytes_short. lia.
Qed.

(** The two padding functions agree: on the hex encoding of at most 32
    bytes, with the ["0x"] prefix or without, [PadHexStringTo32Bytes]
    returns what [PadTo32Bytes] returns on the bytes. *)
Theorem PadHexStringTo32Bytes_EncodeToString (data : list byte) :
  (length data <= 32)%nat ->
  PadHexStringTo32Bytes (hex.EncodeToString data)
  = (y <- PadTo32Bytes data ;; Return (y, None)) /\
  PadHexStringTo32Bytes (lit "0x" ++ hex.EncodeToString data)
  = (y <- PadTo32Bytes data ;; Return (y, None)).
Proof.
  intros Hl. rewrite PadTo32Bytes_right_aligned by exact Hl. cbn [bind]. split.
  - apply PadHexStringTo32Bytes_short; [|exact Hl].
    rewrite strip_0x_EncodeToString. apply EncodeToString_lower.
  - apply PadHexStringTo32Bytes_short; [|exact Hl].
    rewrite strip_0x_prefixed. apply EncodeToString_lower.
Qed.

Lemma PadHexStringTo32Bytes_EncodeToString_1234 :
  PadHexStringTo32Bytes (hex.EncodeToString [Byte.x12; Byte.x34])
  = (y <- PadTo32Bytes [Byte.x12; Byte.x34] ;; Return (y, None)) /\
  PadHexStringTo32Bytes (lit "0x" ++ hex.EncodeToString [Byte.x12; Byte.x34])
  = (y <- PadTo32Bytes [Byte.x12; Byte.x34] ;; Return (y, None)).
Proof. apply PadHexStringTo32Bytes_EncodeToString. simpl. lia. Defined.

(** The prefix is optional: on a string that does not itself start with
    ["0x"], the result is the same with the prefix put in front. *)
Theorem PadHexStringTo32Bytes_prefix_optional (t : gostring) :
  ~ starts_with_0x t ->
  PadHexStringTo32Bytes (lit "0x" ++ t) = PadHexStringTo32Bytes t.
Proof.
  intros H. apply HasPrefix_0x_false in H.
  rewrite !PadHexStringTo32Bytes_decodes.
  rewrite strip_0x_prefixed, (strip_0x_not_prefixed t H). reflexivity.
Qed.

Lemma PadHexStringTo32Bytes_prefix_optional_1234 :
  PadHexStringTo32Bytes (lit "0x" ++ lit "1234") = PadHexStringTo32Bytes (lit "1234").
Proof.
  apply PadHexStringTo32Bytes_prefix_optional.
  apply HasPrefix_0x_false. reflexivity.
Defined.

(** Only one prefix is stripped: a second ["0x"] is a decode error at its
    ['x']. *)
Theorem PadHexStringTo32Bytes_double_prefix (t : gostring) :
  PadHexStringTo32Bytes (lit "0x" ++ lit "0x" ++ t)
  = Return ([], Some (hex.InvalidByteError "x"%byte)).
Proof.
  rewrite PadHexStringTo32Bytes_decodes, strip_0x_prefixed. reflexivity.
Qed.

(** The case of the hex digits does not matter: two strings whose stripped
    parts are valid and equal up to case give the same result. *)
Theorem PadHexStringTo32Bytes_case_insensitive (s s' : gostring) :
  valid_hex (strip_0x s) = true ->
  map lower (strip_0x s) = map lower (strip_0x s') ->
  PadHexStringTo32Bytes s = PadHexStringTo32Bytes s'.
Proof.
  intros Hv Hs. apply Decode_ok_iff in Hv.
  destruct (hex.Decode (strip_0x s)) as [data err] eqn:D. cbn [snd] in Hv. subst err.
  pose proof (Decode_sound _ _ D) as He.
  assert (D' : hex.Decode (strip_0x s') = (data, None))
    by (apply Decode_case_variant; rewrite <- Hs; exact He).
  rewrite !PadHexStringTo32Bytes_decodes. unfold hex.DecodeString.
  rewrite D, D'. reflexivity.
Qed.

Lemma PadHexStringTo32Bytes_case_insensitive_abcd :
  PadHexStringTo32Bytes (lit "0xABcd") = PadHexStringTo32Bytes (lit "abCD").
Proof. apply PadHexStringTo32Bytes_case_insensitive; reflexivity. Defined.

(** [Decode] reports the first byte that is no hex digit, wherever it
    stands. *)
Lemma Decode_first_invalid (pre : gostring) :
  forall (c : byte) (post : gostring),
    forallb is_hex_digit pre = true -> is_hex_digit c = false ->
    snd (hex.Decode (pre ++ c :: post)) = Some (hex.InvalidByteError c).
Proof.
  induction pre as [|p|p q pre IH] using list_pairs_ind; intros c post Hpre Hc.
  - destruct post as [|q post]; cbn [app].
    + cbn [hex.Decode]. pose proof (fromHexChar_ok c) as E.
      destruct (hex.fromHexChar c) as [n ok]. cbn [snd] in E. rewrite E, Hc. reflexivity.
    + rewrite Decode_pair. pose proof (fromHexChar_ok c) as E.
      destruct (hex.fromHexChar c) as [n ok]. cbn [snd] in E. rewrite E, Hc. reflexivity.
  - cbn [app]. rewrite Decode_pair.
    cbn [forallb] in Hpre. rewrite andb_true_r in Hpre.
    pose proof (fromHexChar_ok p) as Ep. pose proof (fromHexChar_ok c) as Ec.
    destruct (hex.fromHexChar p) as [n okp]. destruct (hex.fromHexChar c) as [m okc].
    cbn [snd] in Ep, Ec. rewrite Ep, Hpre, Ec, Hc. reflexivity.
  - cbn [app]. rewrite Decode_pair.
    cbn [forallb] in Hpre. apply andb_true_iff in Hpre. destruct Hpre as [Hp Hpre].
    apply andb_true_iff in Hpre. destruct Hpre as [Hq Hpre].
    pose proof (fromHexChar_ok p) as Ep. pose proof (fromHexChar_ok q) as Eq.
    destruct (hex.fromHexChar p) as [n okp]. destruct (hex.fromHexChar q) as [m okq].
    cbn [snd] in Ep, Eq. rewrite Ep, Hp, Eq, Hq. cbn [negb].
    specialize (IH c post Hpre Hc).
    destruct (hex.Decode (pre ++ c :: post)) as [dst err]. exact IH.
Qed.

Lemma Decode_odd_length (s : gostring) :
  forallb is_hex_digit s = true -> Nat.odd (length s) = true ->
  snd (hex.Decode s) = Some hex.ErrLength.
Proof.
  induction s as [|p|p q s IH] using list_pairs_ind; intros Hs Ho.
  - discriminate Ho.
  - cbn [hex.Decode]. cbn [forallb] in Hs. rewrite andb_true_r in Hs.
    pose proof (fromHexChar_ok p) as Ep.
    destruct (hex.fromHexChar p) as [n okp]. cbn [snd] in Ep. rewrite Ep, Hs. reflexivity.
  - rewrite Decode_pair.
    cbn [forallb] in Hs. apply andb_true_iff in Hs. destruct Hs as [Hp Hs].
    apply andb_true_iff in Hs. destruct Hs as [Hq Hs].
    pose proof (fromHexChar_ok p) as Ep. pose proof (fromHexChar_ok q) as Eq.
    destruct (hex.fromHexChar p) as [n okp]. destruct (hex.fromHexChar q) as [m okq].
    cbn [snd] in Ep, Eq. rewrite Ep, Hp, Eq, Hq. cbn [negb].
    change (Nat.odd (length (p :: q :: s))) with (Nat.odd (length s)) in Ho.
    specialize (IH Hs Ho). destruct (hex.Decode s) as [dst err]. exact IH.
Qed.

(** Which error [PadHexStringTo32Bytes] returns.  A character that is no
    hex digit wins over an odd length: the error names the first such
    character of the stripped string.  Hex digits only, in odd number, give
    [ErrLength]. *)
Theorem PadHexStringTo32Bytes_error (s : gostring) :
  (forall (pre : gostring) (c : byte) (post : gostring),
      strip_0x s = pre ++ c :: post ->
      forallb is_hex_digit pre = true -> is_hex_digit c = false ->
      PadHexStringTo32Bytes s = Return ([], Some (hex.InvalidByteError c))) /\
  (forallb is_hex_digit (strip_0x s) = true -> Nat.odd (length (strip_0x s)) = true ->
   PadHexStringTo32Bytes s = Return ([], Some hex.ErrLength)).
Proof.
  split.
  - intros pre c post Hs Hpre Hc.
    rewrite PadHexStringTo32Bytes_decodes. unfold hex.DecodeString. rewrite Hs.
    pose proof (Decode_first_invalid pre c post Hpre Hc) as E.
    destruct (hex.Decode (pre ++ c :: post)) as [data err]. cbn [snd] in E.
    rewrite E. reflexivity.
  - intros Hs Ho.
    rewrite PadHexStringTo32Bytes_decodes. unfold hex.DecodeString.
    pose proof (Decode_odd_length _ Hs Ho) as E.
    destruct (hex.Decode (strip_0x s)) as [data err]. cbn [snd] in E.
    rewrite E. reflexivity.
Qed.

Lemma be_value_from_zeros (n : nat) :
  fold_left (fun acc b => (acc * 256 + u8 b)%N) (repeat Byte.x00 n) 0%N = 0%N.
Proof. induction n as [|n IH]; [reflexivity|exact IH]. Qed.

Lemma be_value_leading_zeros (n : nat) (x : list byte) :
  be_value (repeat Byte.x00 n ++ x) = be_value x.
Proof. unfold be_value. rewrite fold_left_app, be_value_from_zeros. reflexivity. Qed.

(** [PadTo32Bytes] keeps the number its input writes, big-endian, and
    returns [max(32, len)] bytes: never fewer than 32, and more than 32
    only for a longer input. *)
Theorem PadTo32Bytes_be_value (x : list byte) :
  exists y : list byte,
    PadTo32Bytes x = Return y /\
    be_value y = be_value x /\
    length y = Nat.max 32 (length x).
Proof.
  destruct (Nat.le_gt_cases 32 (length x)) as [H|H].
  - exists x. rewrite PadTo32Bytes_long by exact H. repeat split. lia.
  - exists (right_aligned_32 x). rewrite PadTo32Bytes_short by exact H.
    split; [reflexivity|]. split.
    + apply be_value_leading_zeros.
    + rewrite right_aligned_32_length; lia.
Qed.

Lemma repeat_snoc {A : Type} (a : A) (n : nat) (l : list A) :
  repeat a n ++ a :: l = repeat a (S n) ++ l.
Proof. induction n as [|n IH]; [reflexivity|]. simpl. rewrite IH. reflexivity. Qed.

(** [PadTo32Bytes] does not tell leading zero bytes apart: a zero byte in
    front of an input shorter than 32 bytes leaves the result as it is. *)
Theorem PadTo32Bytes_leading_zero (x : list byte) :
  (length x < 32)%nat ->
  PadTo32Bytes (Byte.x00 :: x) = PadTo32Bytes x.
Proof.
  intros H.
  rewrite (PadTo32Bytes_right_aligned (Byte.x00 :: x)) by (cbn [length]; lia).
  rewrite (PadTo32Bytes_right_aligned x) by lia.
  unfold right_aligned_32. cbn [length]. rewrite repeat_snoc.
  replace (S (32 - S (length x))) with (32 - length x)%nat by lia. reflexivity.
Qed.

Lemma PadTo32Bytes_leading_zero_1234 :
  PadTo32Bytes (Byte.x00 :: [Byte.x12; Byte.x34]) = PadTo32Bytes [Byte.x12; Byte.x34].
Proof. apply PadTo32Bytes_leading_zero. simpl. lia. Defined.

(** Two hex digits are worth sixteen times the first plus the second. *)
Lemma fromHexChar_pair_value (p q : byte) :
  snd (hex.fromHexChar p) = true -> snd (hex.fromHexChar q) = true ->
  u8 (byte_of_N (N.lor (N.shiftl (fst (hex.fromHexChar p)) 4) (fst (hex.fromHexChar q))))
  = (fst (hex.fromHexChar p) * 16 + fst (hex.fromHexChar q))%N.
Proof.
  destruct p; (intros Hp; vm_compute in Hp; try discriminate Hp; clear Hp);
    destruct q; (intros Hq; vm_compute in Hq; try discriminate Hq; clear Hq);
    vm_compute; reflexivity.
Qed.

Lemma Decode_value (s : gostring) :
  forall (data : list byte) (acc : N),
    hex.Decode s = (data, None) ->
    fold_left (fun acc b => (acc * 256 + u8 b)%N) data acc
    = fold_left (fun acc c => (acc * 16 + fst (hex.fromHexChar c))%N) s acc.
Proof.
  induction s as [|p|p q s IH] using list_pairs_ind; intros data acc H.
  - injection H as <-. reflexivity.
  - simpl in H. destruct (hex.fromHexChar p) as [n []]; discriminate.
  - rewrite Decode_pair in H. cbn [fold_left].
    pose proof (fromHexChar_pair_value p q) as Hv.
    destruct (hex.fromHexChar p) as [n [|]]; cbn [negb] in H; cbv iota in H; [|discriminate].
    destruct (hex.fromHexChar q) as [m [|]]; cbn [negb] in H; cbv iota in H; [|discriminate].
    destruct (hex.Decode s) as [dst err].
    injection H as <- ->. cbn [fst snd] in *. cbn [fold_left].
    rewrite (Hv eq_refl eq_refl), (IH dst _ eq_refl). f_equal. lia.
Qed.

(** Whenever [PadHexStringTo32Bytes] returns without an error, the result
    is 32 bytes that write, big-endian, the number the hex digits write. *)
Theorem PadHexStringTo32Bytes_value (s : gostring) (r : list byte) :
  PadHexStringTo32Bytes s = Return (r, None) ->
  length r = 32%nat /\ be_value r = hex_value (strip_0x s).
Proof.
  intros H. rewrite PadHexStringTo32Bytes_decodes in H. unfold hex.DecodeString in H.
  destruct (hex.Decode (strip_0x s)) as [data [e|]] eqn:D; [discriminate|].
  destruct (Nat.le_gt_cases (length data) 32) as [Hl|Hl].
  - change 32 with (Z.of_nat 32) in H. rewrite copy_into_make in H by exact Hl.
    injection H as <-. split.
    + apply right_aligned_32_length, Hl.
    + rewrite be_value_leading_zeros. apply Decode_value, D.
  - unfold copy_into in H.
    rewrite slice_from_negative in H by (unfold len; lia). discriminate.
Qed.

Lemma PadHexStringTo32Bytes_value_1234 :
  length (repeat Byte.x00 30 ++ [Byte.x12; Byte.x34]) = 32%nat /\
  be_value (repeat Byte.x00 30 ++ [Byte.x12; Byte.x34]) = hex_value (strip_0x (lit "0x1234")).
Proof. apply PadHexStringTo32Bytes_value. reflexivity. Defined.

(** ** Concatenation *)

Lemma ConcatBytes_concat (bytes : list (list byte)) : ConcatBytes bytes = concat bytes.
Proof. unfold ConcatBytes. rewrite ConcatBytes_from. reflexivity. Qed.

(** [ConcatBytes] composes: the arguments may be concatenated in groups
    first, and arguments of length zero do not show. *)
Theorem ConcatBytes_compose (l1 l2 : list (list byte)) :
  ConcatBytes (l1 ++ l2) = ConcatBytes l1 ++ ConcatBytes l2 /\
  ConcatBytes [ConcatBytes l1; ConcatBytes l2] = ConcatBytes (l1 ++ l2) /\
  ConcatBytes (filter (fun b => negb (Nat.eqb (length b) 0)) l1) = ConcatBytes l1.
Proof.
  rewrite !ConcatBytes_concat. split; [|split].
  - apply concat_app.
  - cbn [concat]. rewrite app_nil_r, concat_app. reflexivity.
  - induction l1 as [|b l1 IH]; [reflexivity|].
    cbn [filter concat]. destruct b as [|c b]; cbn [length Nat.eqb negb app].
    + exact IH.
    + cbn [concat]. rewrite IH. reflexivity.
Qed.

Lemma for_each_PadTo32Bytes (l : list (list byte)) :
  Forall (fun x => (length x <= 32)%nat) l ->
  for_each PadTo32Bytes l = Return (map right_aligned_32 l).
Proof.
  induction 1 as [|x l Hx Hl IH]; [reflexivity|].
  cbn [for_each map]. rewrite (PadTo32Bytes_right_aligned x Hx), IH. reflexivity.
Qed.

Lemma concat_words_skipn (ws : list (list byte)) :
  Forall (fun w => length w = 32%nat) ws ->
  forall k : nat, skipn (32 * k) (concat ws) = concat (skipn k ws).
Proof.
  induction 1 as [|w ws Hw Hws IH]; intros k.
  - rewrite !skipn_nil. reflexivity.
  - destruct k as [|k]; [reflexivity|].
    cbn [concat skipn]. replace (32 * S k)%nat with (length w + 32 * k)%nat by lia.
    rewrite skipn_app, skipn_all2 by lia.
    replace (length w + 32 * k - length w)%nat with (32 * k)%nat by lia.
    apply IH.
Qed.

(** Packing words: the paddings of [n] values of at most 32 bytes each,
    concatenated, are [32 * n] bytes, and the [k]-th block of 32 bytes is
    the [k]-th value right-aligned. *)
Theorem ConcatBytes_padded_words (l : list (list byte)) :
  Forall (fun x => (length x <= 32)%nat) l ->
  exists ws : list (list byte),
    for_each PadTo32Bytes l = Return ws /\
    length (ConcatBytes ws) = (32 * length l)%nat /\
    forall (k : nat) (x : list byte),
      nth_error l k = Some x ->
      firstn 32 (skipn (32 * k) (ConcatBytes ws)) = repeat Byte.x00 (32 - length x) ++ x.
Proof.
  intros Hl. exists (map right_aligned_32 l).
  split; [apply for_each_PadTo32Bytes, Hl|].
  assert (Hws : Forall (fun w => length w = 32%nat) (map right_aligned_32 l)).
  { apply Forall_map. eapply Forall_impl; [|exact Hl].
    intros x Hx. apply right_aligned_32_length, Hx. }
  rewrite ConcatBytes_concat. split.
  - clear Hl. induction l as [|x l IH]; [reflexivity|].
    inversion Hws as [|w ws Hw Hws']; subst.
    cbn [map concat length]. rewrite length_app, Hw, (IH Hws'). lia.
  - intros k x Hk. rewrite (concat_words_skipn _ Hws).
    rewrite skipn_map.
    assert (Hsk : exists rest, skipn k l = x :: rest).
    { clear Hl Hws. revert k Hk. induction l as [|y l IH]; intros [|k] Hk;
        simpl in Hk; try discriminate.
      - injection Hk as ->. eexists. reflexivity.
      - apply IH, Hk. }
    destruct Hsk as [rest ->]. cbn [map concat].
    assert (Hx : length (right_aligned_32 x) = 32%nat).
    { apply right_aligned_32_length.
      rewrite Forall_forall in Hl. apply Hl. eapply nth_error_In, Hk. }
    rewrite firstn_app, Hx, Nat.sub_diag, firstn_O, app_nil_r.
    rewrite <- Hx at 1. apply firstn_all.
Qed.

Lemma ConcatBytes_padded_words_two :
  exists ws : list (list byte),
    for_each PadTo32Bytes [[Byte.x12; Byte.x34]; [Byte.x56]] = Return ws /\
    length (ConcatBytes ws) = (32 * length [[Byte.x12; Byte.x34]; [Byte.x56]])%nat /\
    forall (k : nat) (x : list byte),
      nth_error [[Byte.x12; Byte.x34]; [Byte.x56]] k = Some x ->
      firstn 32 (skipn (32 * k) (ConcatBytes ws)) = repeat Byte.x00 (32 - length x) ++ x.
Proof.
  apply ConcatBytes_padded_words. repeat constructor; simpl; lia.
Defined.

(** ** HMAC-SHA256 *)

Example Sum256_abc :
  Sum256 (lit "abc") = unhex "ba7816bf8f01cfea414140de5dae2223b00361a396177a9cb410ff61f20015ad".
Proof. vm_compute. reflexivity. Qed.

Example Sum256_two_blocks :
  Sum256 (lit "abcdbcdecdefdefgefghfghighijhijkijkljklmklmnlmnomnopnopq")
  = unhex "248d6a61d20638b8e5c026930c3e6039a33ce45964ff2167f6ecedd419db06c1".
Proof. vm_compute. reflexivity. Qed.

(** RFC 4231, test case 2, and a key longer than a block (test case 6). *)
Example ComputeHMACDigest_rfc4231_2 :
  ComputeHMACDigest (lit "what do ya want for nothing?") (lit "Jefe")
  = unhex "5bdcc146bf60754e6a042426089575c75a003f089d2739839dec58b964ec3843".
Proof. vm_compute. reflexivity. Qed.

Example ComputeHMACDigest_rfc4231_6 :
  ComputeHMACDigest (lit "Test Using Larger Than Block-Size Key - Hash Key First")
                    (repeat Byte.xaa 131)
  = unhex "60e431591ee0b67f0d8a26aacbf5b77f8e0bc6213728c5140546040f0ee37f54".
Proof. vm_compute. reflexivity. Qed.

(** Writing in two pieces is writing the whole. *)
Lemma sha256_Write_app (p : list byte) :
  forall (d : sha256.digest) (q : list byte),
    sha256.Write (sha256.Write d p) q = sha256.Write d (p ++ q).
Proof.
  induction p as [|b p IH]; intros d q; [reflexivity|].
  cbn [sha256.Write app].
  destruct (Nat.eqb (length (sha256.x d ++ [b])) sha256.BlockSize); apply IH.
Qed.

Lemma checkSum_length (d : sha256.digest) : length (sha256.checkSum d) = 32%nat.
Proof. reflexivity. Qed.

Lemma Sum256_length (data : list byte) : length (Sum256 data) = 32%nat.
Proof. unfold Sum256, sha256.Sum. apply checkSum_length. Qed.

(** A key of at most 64 bytes copied into a zeroed pad is the key followed
    by zeros. *)
Lemma copy_key (key : list byte) :
  (length key <= 64)%nat ->
  copy (make 64) key = key ++ repeat Byte.x00 (64 - length key).
Proof.
  intros H. unfold copy, make. rewrite repeat_length.
  replace (Nat.min 64 (length key)) with (length key) by lia.
  rewrite firstn_all. f_equal.
  replace 64%nat with (length key + (64 - length key))%nat at 1 by lia.
  rewrite repeat_app, skipn_app, repeat_length, Nat.sub_diag, skipn_O.
  rewrite skipn_all2 by (rewrite repeat_length; lia). reflexivity.
Qed.

Lemma hmac_New_pads (secret : list byte) :
  hmac.ipad (hmac.New secret) = map (fun b => byte_xor b 0x36) (key_block secret) /\
  hmac.opad (hmac.New secret) = map (fun b => byte_xor b 0x5c) (key_block secret) /\
  hmac.inner (hmac.New secret) = sha256.Write sha256.New (hmac.ipad (hmac.New secret)).
Proof.
  unfold hmac.New, key_block. change sha256.BlockSize with 64%nat.
  destruct (64 <? length secret)%nat eqn:E; cbn [hmac.ipad hmac.opad hmac.inner].
  - change (sha256.Sum (sha256.Write sha256.New secret) []) with (Sum256 secret).
    rewrite copy_key by (rewrite Sum256_length; lia). repeat split.
  - apply Nat.ltb_ge in E. rewrite copy_key by exact E. repeat split.
Qed.

Lemma ComputeHMACDigest_closed (message secret : list byte) :
  ComputeHMACDigest message secret
  = Sum256 (map (fun b => byte_xor b 0x5c) (key_block secret)
            ++ Sum256 (map (fun b => byte_xor b 0x36) (key_block secret) ++ message)) /\
  length (ComputeHMACDigest message secret) = 32%nat.
Proof.
  assert (H : ComputeHMACDigest message secret
    = Sum256 (map (fun b => byte_xor b 0x5c) (key_block secret)
              ++ Sum256 (map (fun b => byte_xor b 0x36) (key_block secret) ++ message))).
  { destruct (hmac_New_pads secret) as (Hi & Ho & Hin).
    unfold ComputeHMACDigest, hmac.Sum, hmac.Write.
    cbn [hmac.inner hmac.opad hmac.ipad hmac.outer length skipn firstn].
    rewrite Hin, Hi, Ho, !sha256_Write_app. reflexivity. }
  split; [exact H|]. rewrite H. apply Sum256_length.
Qed.

(** [ComputeHMACDigest] is HMAC as RFC 2104 writes it,
    [H((K xor opad) || H((K xor ipad) || message))] over SHA-256, with [K]
    the key block of the secret; the digest is 32 bytes. *)
Theorem ComputeHMACDigest_rfc2104 (message secret : list byte) :
  ComputeHMACDigest message secret
  = Sum256 (map (fun b => byte_xor b 0x5c) (key_block secret)
            ++ Sum256 (map (fun b => byte_xor b 0x36) (key_block secret) ++ message)) /\
  length (ComputeHMACDigest message secret) = 32%nat.
Proof. apply ComputeHMACDigest_closed. Qed.

Lemma key_block_long (secret : list byte) :
  (64 < length secret)%nat -> key_block secret = key_block (Sum256 secret).
Proof.
  intros H. unfold key_block.
  replace (64 <? length secret)%nat with true by (symmetry; apply Nat.ltb_lt, H).
  rewrite Sum256_length. reflexivity.
Qed.

Lemma key_block_zeros (secret : list byte) (n : nat) :
  (length secret + n <= 64)%nat ->
  key_block (secret ++ repeat Byte.x00 n) = key_block secret.
Proof.
  intros H. unfold key_block.
  replace (64 <? length (secret ++ repeat Byte.x00 n))%nat with false
    by (symmetry; apply Nat.ltb_ge; rewrite length_app, repeat_length; lia).
  replace (64 <? length secret)%nat with false by (symmetry; apply Nat.ltb_ge; lia).
  rewrite length_app, repeat_length, <- app_assoc, <- repeat_app.
  f_equal. f_equal. lia.
Qed.

Lemma ComputeHMACDigest_key_block (message s1 s2 : list byte) :
  key_block s1 = key_block s2 ->
  ComputeHMACDigest message s1 = ComputeHMACDigest message s2.
Proof.
  intros H.
  destruct (ComputeHMACDigest_closed message s1) as [H1 _].
  destruct (ComputeHMACDigest_closed message s2) as [H2 _].
  rewrite H1, H2, H. reflexivity.
Qed.

(** A secret longer than 64 bytes and its SHA-256 digest are the same key:
    they give the same HMAC for every message. *)
Theorem ComputeHMACDigest_long_secret (message secret : list byte) :
  (64 < length secret)%nat ->
  ComputeHMACDigest message secret = ComputeHMACDigest message (Sum256 secret).
Proof. intros H. apply ComputeHMACDigest_key_block, key_block_long, H. Qed.

Lemma ComputeHMACDigest_long_secret_65 :
  ComputeHMACDigest (lit "your message") (repeat "k"%byte 65)
  = ComputeHMACDigest (lit "your message") (Sum256 (repeat "k"%byte 65)).
Proof. apply ComputeHMACDigest_long_secret. simpl. lia. Defined.

(** Zero bytes after a secret, up to 64 bytes in all, do not change the
    key: the HMAC is the same for every message. *)
Theorem ComputeHMACDigest_trailing_zeros (message secret : list byte) (n : nat) :
  (length secret + n <= 64)%nat ->
  ComputeHMACDigest message (secret ++ repeat Byte.x00 n) = ComputeHMACDigest message secret.
Proof. intros H. apply ComputeHMACDigest_key_block, key_block_zeros, H. Qed.

Lemma ComputeHMACDigest_trailing_zeros_key :
  ComputeHMACDigest (lit "your message") (lit "your secret key" ++ repeat Byte.x00 3)
  = ComputeHMACDigest (lit "your message") (lit "your secret key").
Proof. apply ComputeHMACDigest_trailing_zeros. simpl. lia. Defined.
